(** * lidarplot: rendering of planar laser scans (src/lidarplot.cpp)

    A shallow embedding of the [LidarVisualizer] node: the constructor, the
    [scanCallback] that turns one [sensor_msgs::msg::LaserScan] into a
    500x500 top-down image, and the dispatch of a sequence of messages.

    Modelling conventions.
    - C++ [float] is IEEE-754 binary32 and [double] is binary64, both taken
      from the standard library's executable specification [SpecFloat]
      (round to nearest, ties to even, one rounding per operation).
    - [int] is a 32-bit two's complement integer, kept as a [Z].
    - A conversion [static_cast<int>(f)] whose truncated value does not fit
      an [int], and a read [v[i]] past the end of a [std::vector], have no
      defined behaviour in C++; both are explicit [Undefined] outcomes.
    - [cos] and [sin] come from the C library; they are parameters of the
      development, taking and returning a [float].
    - OpenCV and rclcpp are collaborators: an image is the canvas
      ([cv::Mat] constructor arguments) together with the ordered list of
      drawing calls applied to it, and logging, display and recording are
      events of a trace. *)

From Stdlib Require Import ZArith List Bool Lia String Sorted.
From Stdlib Require Import Floats.SpecFloat.
Import ListNotations.
Local Open Scope Z_scope.

(** ** Machine integers *)

Definition INT_MIN : Z := -2147483648.
Definition INT_MAX : Z := 2147483647.

Definition in_int (z : Z) : bool := (INT_MIN <=? z) && (z <=? INT_MAX).

(** [size_t] to [int]: the value modulo 2^32, read as a signed number. *)
Definition int_of_size_t (n : nat) : Z :=
  (Z.of_nat n + 2147483648) mod 4294967296 - 2147483648.

(** ** Floating point *)

Definition float32 := spec_float.
Definition float64 := spec_float.

Module F32.
Definition prec : Z := 24.
Definition emax : Z := 128.

Definition zero : float32 := S754_zero false.
Definition of_int (z : Z) : float32 := binary_normalize prec emax z 0 false.
Definition one : float32 := of_int 1.

(** Conversion of a [double] to [float] (rounds to nearest). *)
Definition of_double (d : float64) : float32 :=
  match d with
  | S754_finite s m e => binary_round prec emax s m e
  | _ => d
  end.

Definition add : float32 -> float32 -> float32 := SFadd prec emax.
Definition sub : float32 -> float32 -> float32 := SFsub prec emax.
Definition mul : float32 -> float32 -> float32 := SFmul prec emax.
Definition div : float32 -> float32 -> float32 := SFdiv prec emax.
Definition opp : float32 -> float32 := SFopp.

(** [a < b], [a > b]: false as soon as one side is a NaN. *)
Definition ltb : float32 -> float32 -> bool := SFltb.
Definition gtb (a b : float32) : bool := SFltb b a.

Definition isnan (f : float32) : bool :=
  match f with S754_nan => true | _ => false end.

(** The integer obtained by discarding the fractional part. *)
Definition trunc (f : float32) : option Z :=
  match f with
  | S754_zero _ => Some 0
  | S754_finite s m e =>
      let a := match e with
               | Zneg p => Z.shiftr (Zpos m) (Zpos p)
               | _ => Z.shiftl (Zpos m) e
               end in
      Some (if s then - a else a)
  | S754_infinity _ | S754_nan => None
  end.

(** [static_cast<int>(f)]: defined only when the truncated value is
    representable in [int]. *)
Definition to_int (f : float32) : option Z :=
  match trunc f with
  | Some z => if in_int z then Some z else None
  | None => None
  end.
End F32.

Module F64.
Definition prec : Z := 53.
Definition emax : Z := 1024.

Definition of_int (z : Z) : float64 := binary_normalize prec emax z 0 false.

(** Promotion of a [float] to [double] (exact). *)
Definition of_float (f : float32) : float64 :=
  match f with
  | S754_finite s m e => binary_round prec emax s m e
  | _ => f
  end.

Definition mul : float64 -> float64 -> float64 := SFmul prec emax.
Definition div : float64 -> float64 -> float64 := SFdiv prec emax.

(** The literal [0.02]: the double nearest to 2/100. *)
Definition lit_0_02 : float64 := div (of_int 2) (of_int 100).

(** [M_PI] = 0x400921FB54442D18. *)
Definition M_PI : float64 := S754_finite false 7074237752028440 (-51).
End F64.

(** [#define RAD2DEG(x) ((x) * 180. / M_PI)], evaluated in [double]. *)
Definition RAD2DEG (x : float32) : float64 :=
  F64.div (F64.mul (F64.of_float x) (F64.of_int 180)) F64.M_PI.

(** ** OpenCV values *)

Record Point := mkPoint { pt_x : Z; pt_y : Z }.

(** [cv::Scalar(b, g, r)]. *)
Record Scalar := mkScalar { ch0 : Z; ch1 : Z; ch2 : Z }.

Definition white : Scalar := mkScalar 255 255 255.
Definition black : Scalar := mkScalar 0 0 0.
Definition red : Scalar := mkScalar 0 0 255.

Inductive draw_op :=
| Line (pt1 pt2 : Point) (color : Scalar) (thickness : Z)
| Circle (center : Point) (radius : Z) (color : Scalar) (thickness : Z).

(** A [CV_8UC3] matrix: its size, the value every pixel was initialised
    with, and the drawing calls made on it since, oldest first. *)
Record Mat := mkMat {
  rows : Z;
  cols : Z;
  fill : Scalar;
  drawn : list draw_op
}.

Definition Mat_new (r c : Z) (s : Scalar) : Mat := mkMat r c s [].

Definition cv_line (img : Mat) (p q : Point) (color : Scalar) (th : Z) : Mat :=
  mkMat (rows img) (cols img) (fill img) (drawn img ++ [Line p q color th]).

Definition cv_circle (img : Mat) (c : Point) (radius : Z) (color : Scalar)
    (th : Z) : Mat :=
  mkMat (rows img) (cols img) (fill img)
        (drawn img ++ [Circle c radius color th]).

(** [cv::VideoWriter]: whether [open] succeeded, and the frames written. *)
Record VideoWriter := mkVideoWriter {
  isOpened : bool;
  frames : list Mat
}.

Definition VideoWriter_write (w : VideoWriter) (img : Mat) : VideoWriter :=
  mkVideoWriter (isOpened w) (frames w ++ [img]).

(** ** ROS message *)

Record LaserScan := mkLaserScan {
  frame_id : string;
  angle_min : float32;
  angle_max : float32;
  angle_increment : float32;
  time_increment : float32;
  scan_time : float32;
  range_min : float32;
  range_max : float32;
  ranges : list float32;
  intensities : list float32
}.

(** ** Observable events and outcomes *)

Inductive event :=
| CreateSubscription (topic : string)
| NamedWindow (name : string)
| VideoOpen (file fourcc : string) (fps : Z) (width height : Z)
| LogWarn (msg : string)
| LogInfoScan (frame : string) (count : Z)
| LogInfoAngleRange (lo hi : float64)
| LogDebugSample (angle_deg : float64) (range : float32)
| ImShow (name : string) (img : Mat)
| WaitKey (delay : Z)
| DestroyAllWindows.

Inductive undefined :=
| FloatToInt (f : float32)
| OutOfBounds (i : Z).

Inductive outcome (A : Type) :=
| Ok (a : A) (tr : list event)
| Undefined (u : undefined).
Arguments Ok {A} a tr.
Arguments Undefined {A} u.

Definition ret {A} (a : A) : outcome A := Ok a [].

Definition bind {A B} (m : outcome A) (k : A -> outcome B) : outcome B :=
  match m with
  | Undefined u => Undefined u
  | Ok a t =>
      match k a with
      | Undefined u => Undefined u
      | Ok b t' => Ok b (t ++ t')
      end
  end.

Definition emit (e : event) : outcome unit := Ok tt [e].

Notation "x <- m ;; k" := (bind m (fun x => k))
  (at level 61, m at next level, right associativity).
Notation "m ;;; k" := (bind m (fun _ => k))
  (at level 61, right associativity).

Definition static_cast_int (f : float32) : outcome Z :=
  match F32.to_int f with
  | Some z => ret z
  | None => Undefined (FloatToInt f)
  end.

(** [v[i]] on a [std::vector<float>]. *)
Definition vector_at (v : list float32) (i : Z) : outcome float32 :=
  if i <? 0 then Undefined (OutOfBounds i)
  else match nth_error v (Z.to_nat i) with
       | Some r => ret r
       | None => Undefined (OutOfBounds i)
       end.

(** ** The node *)

Record LidarVisualizer := mkLidarVisualizer {
  img_size_ : Z;
  meter_per_pixel_ : float32;
  center_ : Point;
  video_writer_ : VideoWriter
}.

(** The constructor. [open_ok] is the answer of [video_writer_.open]. *)
Definition LidarVisualizer_new (open_ok : bool)
    : LidarVisualizer * list event :=
  let img_size := 500 in
  let meter_per_pixel := F32.of_double F64.lit_0_02 in
  let center := mkPoint (Z.quot img_size 2) (Z.quot img_size 2) in
  let writer := mkVideoWriter open_ok [] in
  (mkLidarVisualizer img_size meter_per_pixel center writer,
   [CreateSubscription "/scan"; NamedWindow "Lidar Scan";
    VideoOpen "lidar_scan.avi" "MJPG" 10 img_size img_size]
   ++ (if negb (isOpened writer)
       then [LogWarn "Failed to open video writer, video will not be saved."]
       else [])).

Section Callback.
Variables cosf sinf : float32 -> float32.
Variable self : LidarVisualizer.

(** Lines 41-43: the number of samples to visit. *)
Definition sample_count (scan : LaserScan) : outcome Z :=
  count <- static_cast_int (F32.div (scan_time scan) (time_increment scan)) ;;
  ret (if count <=? 0 then int_of_size_t (List.length (ranges scan))
       else count).

(** Lines 52-60: the white canvas with the black cross at its centre. *)
Definition background : Mat :=
  let img := Mat_new (img_size_ self) (img_size_ self) white in
  let c := center_ self in
  let img := cv_line img (mkPoint (pt_x c - 5) (pt_y c))
                         (mkPoint (pt_x c + 5) (pt_y c)) black 2 in
  cv_line img (mkPoint (pt_x c) (pt_y c - 5))
              (mkPoint (pt_x c) (pt_y c + 5)) black 2.

(** Line 72: the test that sends the loop to its next iteration. *)
Definition rejected (scan : LaserScan) (range : float32) : bool :=
  F32.ltb range (range_min scan) || F32.gtb range (range_max scan)
  || F32.isnan range.

(** Lines 76-86: polar to cartesian, quarter turn, metres to pixels. *)
Definition to_pixel (angle range : float32) : outcome (Z * Z) :=
  let x := F32.mul range (cosf angle) in
  let y := F32.mul range (sinf angle) in
  let x_rot := y in
  let y_rot := F32.opp x in
  px <- static_cast_int
          (F32.add (F32.of_int (pt_x (center_ self)))
                   (F32.div x_rot (meter_per_pixel_ self))) ;;
  py <- static_cast_int
          (F32.sub (F32.of_int (pt_y (center_ self)))
                   (F32.div y_rot (meter_per_pixel_ self))) ;;
  ret (px, py).

(** Lines 89-91: the disc is drawn only inside the image. *)
Definition in_image (px py : Z) : bool :=
  (0 <=? px) && (px <? img_size_ self) && (0 <=? py) && (py <? img_size_ self).

Definition plot (img : Mat) (px py : Z) : Mat :=
  if in_image px py then cv_circle img (mkPoint px py) 2 red (-1) else img.

(** Lines 72-91 for one sample. *)
Definition plot_sample (scan : LaserScan) (angle range : float32)
    (img : Mat) : outcome Mat :=
  if rejected scan range then ret img
  else
    p <- to_pixel angle range ;;
    ret (plot img (fst p) (snd p)).

Definition sample_angle (scan : LaserScan) (i : Z) : float32 :=
  F32.add (angle_min scan) (F32.mul (F32.of_int i) (angle_increment scan)).

(** Lines 64-91: one iteration of the loop. *)
Definition loop_body (scan : LaserScan) (i : Z) (img : Mat) : outcome Mat :=
  let angle := sample_angle scan i in
  range <- vector_at (ranges scan) i ;;
  emit (LogDebugSample (RAD2DEG angle) range) ;;;
  plot_sample scan angle range img.

(** [for (; i < count; ++i)] with [n] iterations left. *)
Fixpoint loop (scan : LaserScan) (n : nat) (i : Z) (img : Mat)
    : outcome Mat :=
  match n with
  | O => ret img
  | S n' => img' <- loop_body scan i img ;; loop scan n' (i + 1) img'
  end.

(** Lines 41-92: the image of one message. *)
Definition render (scan : LaserScan) : outcome Mat :=
  count <- sample_count scan ;;
  emit (LogInfoScan (frame_id scan) count) ;;;
  emit (LogInfoAngleRange (RAD2DEG (angle_min scan))
                          (RAD2DEG (angle_max scan))) ;;;
  loop scan (Z.to_nat count) 0 background.

(** Lines 95-101: display, then record when the writer is open. *)
Definition sink (img : Mat) : outcome LidarVisualizer :=
  emit (ImShow "Lidar Scan" img) ;;;
  emit (WaitKey 1) ;;;
  ret (if isOpened (video_writer_ self)
       then mkLidarVisualizer (img_size_ self) (meter_per_pixel_ self)
              (center_ self) (VideoWriter_write (video_writer_ self) img)
       else self).

Definition scanCallback (scan : LaserScan) : outcome LidarVisualizer :=
  img <- render scan ;; sink img.
End Callback.

(** [rclcpp::spin]: the callback runs once per message, in arrival order. *)
Fixpoint spin (cosf sinf : float32 -> float32) (self : LidarVisualizer)
    (msgs : list LaserScan) : outcome LidarVisualizer :=
  match msgs with
  | [] => ret self
  | scan :: rest =>
      self' <- scanCallback cosf sinf self scan ;; spin cosf sinf self' rest
  end.

(** [main]: the node is built, [msgs] are the messages dispatched until
    shutdown, then the windows are closed. *)
Definition main (cosf sinf : float32 -> float32) (open_ok : bool)
    (msgs : list LaserScan) : outcome Z :=
  let (node, startup) := LidarVisualizer_new open_ok in
  Ok tt startup ;;;
  spin cosf sinf node msgs ;;;
  emit DestroyAllWindows ;;;
  ret 0.

(** ** The conversion on actual targets

    Where C++ leaves [static_cast<int>] undefined, the instruction a
    compiler emits for it still returns something: [cvttss2si] (x86-64)
    returns the "integer indefinite" value [INT_MIN]; [fcvtzs] (AArch64)
    saturates, and maps a NaN to 0. [sample_count_on] is lines 41-43 with
    such a conversion. *)

Inductive target := X86_64 | AArch64.

Definition convert_on (t : target) (f : float32) : Z :=
  match F32.to_int f with
  | Some z => z
  | None =>
      match t, f with
      | X86_64, _ => INT_MIN
      | AArch64, S754_nan => 0
      | AArch64, (S754_infinity true | S754_finite true _ _) => INT_MIN
      | AArch64, _ => INT_MAX
      end
  end.

Definition sample_count_on (t : target) (scan : LaserScan) : Z :=
  let count :=
    convert_on t (F32.div (scan_time scan) (time_increment scan)) in
  if count <=? 0 then int_of_size_t (List.length (ranges scan)) else count.

(** ** A concrete C library

    Short polynomial stand-ins for [cosf] and [sinf], evaluated in binary32.
    They are exact at zero ([cos 0 = 1], [sin 0 = 0]) and only approximate
    elsewhere. They serve to evaluate closed instances of statements that
    hold for every [cosf] and [sinf]; no statement depends on them. *)

Definition poly_cosf (a : float32) : float32 :=
  let a2 := F32.mul a a in
  F32.add (F32.sub F32.one (F32.div a2 (F32.of_int 2)))
          (F32.div (F32.mul a2 a2) (F32.of_int 24)).

Definition poly_sinf (a : float32) : float32 :=
  let a2 := F32.mul a a in
  F32.add (F32.sub a (F32.div (F32.mul a a2) (F32.of_int 6)))
          (F32.div (F32.mul a (F32.mul a2 a2)) (F32.of_int 120)).

(** A message whose angular fields are all zero. *)
Definition scan_of (st ti rmin rmax : float32) (rs : list float32)
    : LaserScan :=
  mkLaserScan "laser" F32.zero F32.zero F32.zero ti st rmin rmax rs [].


(** Projections of a trace. *)
Definition is_warning (e : event) : bool :=
  match e with LogWarn _ => true | _ => false end.

Definition is_video_open (e : event) : bool :=
  match e with VideoOpen _ _ _ _ _ => true | _ => false end.

Definition is_visit (e : event) : bool :=
  match e with LogDebugSample _ _ => true | _ => false end.

Fixpoint shown (tr : list event) : list Mat :=
  match tr with
  | [] => []
  | ImShow _ img :: tr' => img :: shown tr'
  | _ :: tr' => shown tr'
  end.

(** What every frame of the node looks like: the white 500x500 canvas, the
    two strokes of the cross, then nothing but red discs of radius 2. *)
Definition is_disc (d : draw_op) : Prop :=
  exists p, d = Circle p 2 red (-1).

Definition frame_shape (img : Mat) : Prop :=
  rows img = 500 /\ cols img = 500 /\ fill img = white /\
  exists discs,
    drawn img = Line (mkPoint 245 250) (mkPoint 255 250) black 2
             :: Line (mkPoint 250 245) (mkPoint 250 255) black 2
             :: discs
    /\ Forall is_disc discs.

(** The part of the node that the image depends on (the view
    configuration): everything but the writer. *)
Definition view (self : LidarVisualizer) : Z * float32 * Point :=
  (img_size_ self, meter_per_pixel_ self, center_ self).

(** A sample the loop gets through: it is read inside the vector, and it
    is either rejected or has a pixel. *)
Definition sample_ok (cosf sinf : float32 -> float32)
    (self : LidarVisualizer) (scan : LaserScan) (i : Z) : Prop :=
  exists r,
    vector_at (ranges scan) i = Ok r []
    /\ (rejected scan r = true
        \/ exists p, to_pixel cosf sinf self (sample_angle scan i) r = Ok p []).

(** ** Vocabulary of the numeric statements *)

(** [m1 * 2^e1 <= m2 * 2^e2], both sides scaled to integers. *)
Definition le_scaled (m1 e1 m2 e2 : Z) : Prop :=
  m1 * 2 ^ (e1 - Z.min e1 e2) <= m2 * 2 ^ (e2 - Z.min e1 e2).

(** [f >= L * 2^l], for a float that is a positive finite number or
    [+inf]. *)
Definition ge_val (f : float32) (L l : Z) : Prop :=
  match f with
  | S754_infinity false => True
  | S754_finite false m e => le_scaled L l (Zpos m) e
  | _ => False
  end.

(** The results a rounding with a positive sign can produce. *)
Definition nonneg_or_nan (x : float32) : Prop :=
  x = S754_zero false \/ (exists m e, x = S754_finite false m e)
  \/ x = S754_infinity false \/ x = S754_nan.

(** The range [meter_per_pixel_ * k], computed in [float]. *)
Definition range_of_offset (self : LidarVisualizer) (k : Z) : float32 :=
  F32.mul (meter_per_pixel_ self) (F32.of_int k).

(** Does a sample straight ahead at [k] pixel widths land on column
    [center_.x], [k] rows from [center_.y]? *)
Definition round_trip_holds (k : Z) : bool :=
  let node := fst (LidarVisualizer_new true) in
  match to_pixel poly_cosf poly_sinf node F32.zero (range_of_offset node k) with
  | Ok (px, py) _ =>
      (px =? pt_x (center_ node)) && (py =? pt_y (center_ node) + k)
  | Undefined _ => false
  end.

Definition offsets_upto (n : nat) : list Z := map Z.of_nat (seq 1 n).

(** ** Vocabulary of the frame statements *)

(** A disc of the loop whose centre is a pixel of the image. *)
Definition disc_inside (self : LidarVisualizer) (d : draw_op) : Prop :=
  exists p,
    d = Circle p 2 red (-1) /\ in_image self (pt_x p) (pt_y p) = true.

(** The disc [d] is the one of sample [j]: the sample is read inside
    [ranges], passes the validation, has a pixel inside the image, and [d]
    is the red filled disc of radius 2 centred on that pixel. *)
Definition disc_of_sample (cosf sinf : float32 -> float32)
    (self : LidarVisualizer) (scan : LaserScan) (j : nat) (d : draw_op)
    : Prop :=
  exists r px py,
    nth_error (ranges scan) j = Some r
    /\ rejected scan r = false
    /\ to_pixel cosf sinf self (sample_angle scan (Z.of_nat j)) r
       = Ok (px, py) []
    /\ in_image self px py = true
    /\ d = Circle (mkPoint px py) 2 red (-1).

(** The debug lines of the [n] samples that follow the first [k]: one per
    range, in index order. *)
Definition debug_lines (scan : LaserScan) (k n : nat) : list event :=
  map (fun ir =>
         LogDebugSample (RAD2DEG (sample_angle scan (Z.of_nat (fst ir))))
                        (snd ir))
      (combine (seq k n) (firstn n (skipn k (ranges scan)))).

(** A float that is a number: neither an infinity nor a NaN. *)
Definition is_finite (f : float32) : bool :=
  match f with
  | S754_zero _ | S754_finite _ _ _ => true
  | S754_infinity _ | S754_nan => false
  end.

(** The sign bit of a float that is not a NaN. *)
Definition sign_of (f : float32) : option bool :=
  match f with
  | S754_zero s | S754_infinity s | S754_finite s _ _ => Some s
  | S754_nan => None
  end.

(** The results a rounding with sign [s] can produce. *)
Definition signed_or_nan (s : bool) (x : float32) : Prop :=
  x = S754_zero s \/ (exists m e, x = S754_finite s m e)
  \/ x = S754_infinity s \/ x = S754_nan.

(** [f <= U * 2^u], for a float that is not [+inf]. *)
Definition le_val (f : float32) (U u : Z) : Prop :=
  match f with
  | S754_finite false m e => le_scaled (Zpos m) e U u
  | S754_infinity false => False
  | _ => True
  end.

(** * Properties *)

(** ** The outcome monad *)

Lemma bind_ret_l {A B} (a : A) (k : A -> outcome B) : bind (Ok a []) k = k a.
Proof. unfold bind. destruct (k a); reflexivity. Qed.

Lemma bind_Ok_inv {A B} (m : outcome A) (k : A -> outcome B) b tr :
  bind m k = Ok b tr ->
  exists a t1 t2, m = Ok a t1 /\ k a = Ok b t2 /\ tr = t1 ++ t2.
Proof.
  unfold bind. destruct m as [a t1|u]; [|discriminate].
  destruct (k a) as [b' t2|u] eqn:E; [|discriminate].
  intros H. inversion H; subst. exists a, t1, t2. auto.
Qed.

Lemma bind_Undefined {A B} (m : outcome A) (k : A -> outcome B) u :
  m = Undefined u -> bind m k = Undefined u.
Proof. intros ->. reflexivity. Qed.

Lemma bind_Ok {A B} (m : outcome A) (k : A -> outcome B) a t1 b t2 :
  m = Ok a t1 -> k a = Ok b t2 -> bind m k = Ok b (t1 ++ t2).
Proof. intros -> H. unfold bind. rewrite H. reflexivity. Qed.

(** ** The loop *)

Section LoopFacts.
Variables cosf sinf : float32 -> float32.
Variable self : LidarVisualizer.
Variable scan : LaserScan.

Lemma vector_at_Ok (v : list float32) i r tr :
  vector_at v i = Ok r tr ->
  0 <= i < Z.of_nat (List.length v) /\ nth_error v (Z.to_nat i) = Some r
  /\ tr = [].
Proof.
  unfold vector_at. destruct (Z.ltb_spec i 0); [discriminate|].
  destruct (nth_error v (Z.to_nat i)) eqn:E; [|discriminate].
  intros Hr. inversion Hr; subst.
  assert (Z.to_nat i < List.length v)%nat
    by (apply nth_error_Some; congruence).
  repeat split; auto; lia.
Qed.

Lemma vector_at_past_end (v : list float32) i :
  Z.of_nat (List.length v) <= i -> vector_at v i = Undefined (OutOfBounds i).
Proof.
  intros H. unfold vector_at. destruct (Z.ltb_spec i 0); [reflexivity|].
  assert (E : nth_error v (Z.to_nat i) = None)
    by (apply nth_error_None; lia).
  rewrite E. reflexivity.
Qed.

Lemma vector_at_inside (v : list float32) i :
  0 <= i < Z.of_nat (List.length v) -> exists r, vector_at v i = Ok r [].
Proof.
  intros H. unfold vector_at. destruct (Z.ltb_spec i 0); [lia|].
  destruct (nth_error v (Z.to_nat i)) as [r|] eqn:E.
  - exists r. reflexivity.
  - apply nth_error_None in E. lia.
Qed.

Lemma static_cast_int_cases f :
  (exists z, F32.to_int f = Some z /\ static_cast_int f = Ok z [])
  \/ (F32.to_int f = None /\ static_cast_int f = Undefined (FloatToInt f)).
Proof.
  unfold static_cast_int. destruct (F32.to_int f) as [z|].
  - left. exists z. split; reflexivity.
  - right. split; reflexivity.
Qed.

(** Whatever [to_pixel] fails with is a conversion to [int]. *)
Lemma to_pixel_cases angle range :
  (exists px py, to_pixel cosf sinf self angle range = Ok (px, py) [])
  \/ (exists f, to_pixel cosf sinf self angle range = Undefined (FloatToInt f)).
Proof.
  unfold to_pixel.
  match goal with |- context [bind (static_cast_int ?f) _] =>
    destruct (static_cast_int_cases f) as [(px & _ & ->)|(_ & ->)] end;
    [|right; eexists; reflexivity].
  rewrite bind_ret_l.
  match goal with |- context [bind (static_cast_int ?f) _] =>
    destruct (static_cast_int_cases f) as [(py & _ & ->)|(_ & ->)] end;
    [|right; eexists; reflexivity].
  rewrite bind_ret_l. left. exists px, py. reflexivity.
Qed.

Lemma plot_sample_cases angle range img :
  (exists img', plot_sample cosf sinf self scan angle range img = Ok img' [])
  \/ (exists f, plot_sample cosf sinf self scan angle range img
                = Undefined (FloatToInt f)).
Proof.
  unfold plot_sample. destruct (rejected scan range).
  { left. eexists. reflexivity. }
  destruct (to_pixel_cases angle range) as [(px & py & ->)|(f & ->)].
  - rewrite bind_ret_l. left. eexists. reflexivity.
  - right. eexists. reflexivity.
Qed.

(** An iteration that completes logs the visit of its sample, once. *)
Lemma loop_body_Ok i img img' tr :
  loop_body cosf sinf self scan i img = Ok img' tr ->
  exists range,
    vector_at (ranges scan) i = Ok range []
    /\ plot_sample cosf sinf self scan (sample_angle scan i) range img
       = Ok img' []
    /\ tr = [LogDebugSample (RAD2DEG (sample_angle scan i)) range].
Proof.
  unfold loop_body. intros H.
  apply bind_Ok_inv in H as (range & t1 & t2 & Hv & H & ->).
  apply bind_Ok_inv in H as ([] & t3 & t4 & He & H & ->).
  destruct (vector_at_Ok _ _ _ _ Hv) as (_ & _ & ->).
  inversion He; subst.
  destruct (plot_sample_cases (sample_angle scan i) range img)
    as [(img'' & E)|(f & E)]; rewrite E in H; [|discriminate].
  inversion H; subst. exists range. auto.
Qed.

Lemma loop_body_reads i img range :
  vector_at (ranges scan) i = Ok range [] ->
  loop_body cosf sinf self scan i img
  = (emit (LogDebugSample (RAD2DEG (sample_angle scan i)) range) ;;;
     plot_sample cosf sinf self scan (sample_angle scan i) range img).
Proof. intros H. unfold loop_body. rewrite H, bind_ret_l. reflexivity. Qed.

Lemma loop_S n i img :
  loop cosf sinf self scan (S n) i img
  = (img' <- loop_body cosf sinf self scan i img ;;
     loop cosf sinf self scan n (i + 1) img').
Proof. reflexivity. Qed.

Lemma loop_visits n : forall i img img' tr,
  loop cosf sinf self scan n i img = Ok img' tr ->
  List.length (filter is_visit tr) = n.
Proof.
  induction n as [|n IH]; intros i img img' tr H.
  - inversion H; reflexivity.
  - rewrite loop_S in H.
    apply bind_Ok_inv in H as (img1 & t1 & t2 & Hb & Hl & ->).
    apply loop_body_Ok in Hb as (range & _ & _ & ->).
    simpl. f_equal. eauto.
Qed.

(** Reading past the end: the loop cannot complete once its bound exceeds
    the number of ranges. *)
Lemma loop_overrun n : forall i img,
  0 <= i <= Z.of_nat (List.length (ranges scan)) ->
  Z.of_nat (List.length (ranges scan)) < i + Z.of_nat n ->
  loop cosf sinf self scan n i img
    = Undefined (OutOfBounds (Z.of_nat (List.length (ranges scan))))
  \/ exists f, loop cosf sinf self scan n i img = Undefined (FloatToInt f).
Proof.
  induction n as [|n IH]; intros i img Hi Hn; [lia|].
  rewrite loop_S.
  destruct (Z.eq_dec i (Z.of_nat (List.length (ranges scan)))) as [->|Hne].
  - left. apply bind_Undefined. unfold loop_body.
    apply bind_Undefined, vector_at_past_end. lia.
  - destruct (vector_at_inside (ranges scan) i) as (r & Hr); [lia|].
    rewrite (loop_body_reads _ _ _ Hr).
    destruct (plot_sample_cases (sample_angle scan i) r img)
      as [(img1 & E)|(f & E)]; rewrite E.
    + destruct (IH (i + 1) img1) as [E'|(f & E')]; try lia;
        [left|right; exists f]; unfold emit, bind; rewrite E'; reflexivity.
    + right. exists f. reflexivity.
Qed.

(** Within the vector, the only failure left is a conversion to [int]. *)
Lemma loop_within n : forall i img,
  0 <= i -> i + Z.of_nat n <= Z.of_nat (List.length (ranges scan)) ->
  (exists img' tr, loop cosf sinf self scan n i img = Ok img' tr)
  \/ exists f, loop cosf sinf self scan n i img = Undefined (FloatToInt f).
Proof.
  induction n as [|n IH]; intros i img Hi Hn.
  - left. exists img, []. reflexivity.
  - rewrite loop_S.
    destruct (vector_at_inside (ranges scan) i) as (r & Hr); [lia|].
    rewrite (loop_body_reads _ _ _ Hr).
    destruct (plot_sample_cases (sample_angle scan i) r img)
      as [(img1 & E)|(f & E)]; rewrite E.
    + destruct (IH (i + 1) img1) as [(img' & tr & E')|(f & E')]; try lia.
      * left. eexists. eexists. unfold emit, bind. rewrite E'. reflexivity.
      * right. exists f. unfold emit, bind. rewrite E'. reflexivity.
    + right. exists f. reflexivity.
Qed.

Lemma plot_sample_completes angle range img :
  (exists img', plot_sample cosf sinf self scan angle range img = Ok img' [])
  <-> (rejected scan range = true
       \/ exists p, to_pixel cosf sinf self angle range = Ok p []).
Proof.
  unfold plot_sample. destruct (rejected scan range).
  - split; [auto|]. intros _. eexists. reflexivity.
  - destruct (to_pixel_cases angle range) as [(px & py & E)|(f & E)];
      rewrite E.
    + split; [intros _; right; eexists; reflexivity|].
      intros _. rewrite bind_ret_l. eexists. reflexivity.
    + split.
      * intros (img' & H). discriminate.
      * intros [H|(p & H)]; discriminate.
Qed.

(** The loop completes exactly when every index it visits is fine. *)
Lemma loop_completes n : forall i img,
  (exists img' tr, loop cosf sinf self scan n i img = Ok img' tr)
  <-> (forall j, i <= j < i + Z.of_nat n -> sample_ok cosf sinf self scan j).
Proof.
  induction n as [|n IH]; intros i img.
  - split; [intros _ j Hj; lia|]. intros _. exists img, []. reflexivity.
  - rewrite loop_S. split.
    + intros (img' & tr & H).
      apply bind_Ok_inv in H as (img1 & t1 & t2 & Hb & Hl & _).
      apply loop_body_Ok in Hb as (r & Hv & Hp & _).
      intros j Hj. destruct (Z.eq_dec j i) as [->|Hne].
      * exists r. split; [exact Hv|].
        apply (proj1 (plot_sample_completes (sample_angle scan i) r img)).
        eexists. exact Hp.
      * apply (proj1 (IH (i + 1) img1)); [eauto|lia].
    + intros H.
      destruct (H i ltac:(lia)) as (r & Hv & Hp).
      apply (proj2 (plot_sample_completes (sample_angle scan i) r img))
        in Hp as (img1 & Hp).
      destruct (proj2 (IH (i + 1) img1)) as (img' & tr & Hl).
      { intros j Hj. apply H. lia. }
      rewrite (loop_body_reads _ _ _ Hv), Hp.
      eexists. eexists. unfold emit, bind. rewrite Hl. reflexivity.
Qed.
End LoopFacts.

(** ** Sample count (lines 41-43) *)

Lemma int_of_size_t_small n :
  Z.of_nat n <= INT_MAX -> int_of_size_t n = Z.of_nat n.
Proof.
  unfold int_of_size_t, INT_MAX. intros H.
  rewrite Z.mod_small; lia.
Qed.

Lemma to_int_trunc f z : F32.to_int f = Some z -> F32.trunc f = Some z.
Proof.
  unfold F32.to_int. destruct (F32.trunc f) as [t|]; [|discriminate].
  destruct (in_int t); congruence.
Qed.

Lemma sample_count_defined scan c :
  F32.to_int (F32.div (scan_time scan) (time_increment scan)) = Some c ->
  sample_count scan
  = Ok (if c <=? 0 then int_of_size_t (List.length (ranges scan)) else c) [].
Proof.
  intros H. unfold sample_count, static_cast_int. rewrite H.
  unfold ret. rewrite bind_ret_l. reflexivity.
Qed.

Lemma div_by_zero_not_finite (x : float32) s :
  F32.trunc (F32.div x (S754_zero s)) = None.
Proof. destruct x; reflexivity. Qed.

Lemma render_visits cosf sinf self scan img tr :
  render cosf sinf self scan = Ok img tr ->
  exists c, sample_count scan = Ok c []
            /\ List.length (filter is_visit tr) = Z.to_nat c.
Proof.
  unfold render. intros H.
  apply bind_Ok_inv in H as (c & t1 & t2 & Hc & H & ->).
  apply bind_Ok_inv in H as ([] & t3 & t4 & He1 & H & ->).
  apply bind_Ok_inv in H as ([] & t5 & t6 & He2 & H & ->).
  inversion He1; inversion He2; subst.
  apply loop_visits in H.
  unfold sample_count in Hc.
  apply bind_Ok_inv in Hc as (c0 & t7 & t8 & Hs & Hr & ->).
  destruct (static_cast_int_cases
              (F32.div (scan_time scan) (time_increment scan)))
    as [(z & Hz & E)|(_ & E)]; rewrite E in Hs; [|discriminate].
  inversion Hs; subst. inversion Hr; subst.
  eexists. split.
  - unfold sample_count. rewrite E, bind_ret_l. reflexivity.
  - simpl. exact H.
Qed.

Lemma scanCallback_visits cosf sinf self scan self' tr :
  scanCallback cosf sinf self scan = Ok self' tr ->
  exists c, sample_count scan = Ok c []
            /\ List.length (filter is_visit tr) = Z.to_nat c.
Proof.
  unfold scanCallback. intros H.
  apply bind_Ok_inv in H as (img & t1 & t2 & Hr & Hs & ->).
  apply render_visits in Hr as (c & Hc & Hv).
  exists c. split; [exact Hc|].
  unfold sink, emit, bind, ret in Hs. inversion Hs; subst.
  rewrite filter_app, length_app, Hv. simpl. lia.
Qed.

(** The frame completes exactly when the count is defined and every
    sample below it is fine. *)
Lemma render_completes cosf sinf self scan :
  (exists img tr, render cosf sinf self scan = Ok img tr)
  <-> exists c,
        sample_count scan = Ok c []
        /\ forall j, 0 <= j < c -> sample_ok cosf sinf self scan j.
Proof.
  split.
  - intros (img & tr & H).
    destruct (render_visits _ _ _ _ _ _ H) as (c & Hc & _).
    exists c. split; [exact Hc|].
    unfold render in H. rewrite Hc, bind_ret_l in H.
    apply bind_Ok_inv in H as ([] & t1 & t2 & _ & H & _).
    apply bind_Ok_inv in H as ([] & t3 & t4 & _ & H & _).
    intros j Hj.
    apply (proj1 (loop_completes cosf sinf self scan (Z.to_nat c) 0
                    (background self))); [eauto|lia].
  - intros (c & Hc & H).
    destruct (proj2 (loop_completes cosf sinf self scan (Z.to_nat c) 0
                       (background self))) as (img & tr & Hl).
    { intros j Hj. apply H. lia. }
    unfold render. rewrite Hc, bind_ret_l.
    eexists. eexists. unfold emit, bind. rewrite Hl. reflexivity.
Qed.

(** The fallback path bounds the loop by the vector itself: no read is out
    of bounds when the count is taken from [ranges.size()]. *)
Lemma fallback_stays_in_bounds cosf sinf self scan c :
  F32.to_int (F32.div (scan_time scan) (time_increment scan)) = Some c ->
  c <= 0 ->
  Z.of_nat (List.length (ranges scan)) <= INT_MAX ->
  (exists img tr, render cosf sinf self scan = Ok img tr)
  \/ exists f, render cosf sinf self scan = Undefined (FloatToInt f).
Proof.
  intros Hc Hle Hlen.
  assert (Hcount : sample_count scan
                   = Ok (Z.of_nat (List.length (ranges scan))) []).
  { rewrite (sample_count_defined _ _ Hc), int_of_size_t_small by exact Hlen.
    destruct (Z.leb_spec c 0); [reflexivity|lia]. }
  unfold render. rewrite Hcount, bind_ret_l, Nat2Z.id.
  destruct (loop_within cosf sinf self scan (List.length (ranges scan)) 0
              (background self)) as [(img & tr & E)|(f & E)]; try lia.
  - left. eexists. eexists. unfold emit, bind. rewrite E. reflexivity.
  - right. exists f. unfold emit, bind. rewrite E. reflexivity.
Qed.

(** C1. When the count derived from the timing fields exceeds the number of
    ranges, nothing clamps the loop: the callback never completes, it reads
    [ranges] at index [len(ranges)] (or fails on an earlier sample). The
    claimed clamp to [min(count, len(ranges))] is not in the code. *)
Theorem derived_count_overruns_ranges cosf sinf self scan c :
  F32.to_int (F32.div (scan_time scan) (time_increment scan)) = Some c ->
  Z.of_nat (List.length (ranges scan)) < c ->
  scanCallback cosf sinf self scan
    = Undefined (OutOfBounds (Z.of_nat (List.length (ranges scan))))
  \/ exists f, scanCallback cosf sinf self scan = Undefined (FloatToInt f).
Proof.
  intros Hc Hlen.
  assert (Hcount : sample_count scan = Ok c []).
  { rewrite (sample_count_defined _ _ Hc).
    destruct (Z.leb_spec c 0); [lia|reflexivity]. }
  unfold scanCallback, render. rewrite Hcount, bind_ret_l.
  destruct (loop_overrun cosf sinf self scan (Z.to_nat c) 0
              (background self)) as [E|(f & E)]; try lia;
    [left|right; exists f]; unfold emit, bind; rewrite E; reflexivity.
Qed.

Lemma derived_count_overruns_ranges_witness :
  let node := fst (LidarVisualizer_new true) in
  let scan := scan_of (F32.of_int 10) F32.one F32.zero (F32.of_int 10)
                      [F32.one] in
  F32.to_int (F32.div (scan_time scan) (time_increment scan)) = Some 10
  /\ Z.of_nat (List.length (ranges scan)) < 10
  /\ (scanCallback poly_cosf poly_sinf node scan = Undefined (OutOfBounds 1)
      \/ exists f, scanCallback poly_cosf poly_sinf node scan
                   = Undefined (FloatToInt f)).
Proof.
  intros node scan.
  assert (H1 : F32.to_int (F32.div (scan_time scan) (time_increment scan))
               = Some 10) by reflexivity.
  assert (H2 : Z.of_nat (List.length (ranges scan)) < 10) by (simpl; lia).
  split; [exact H1|]. split; [exact H2|].
  exact (derived_count_overruns_ranges poly_cosf poly_sinf node scan 10 H1 H2).
Defined.

(** The same message, run: the second iteration reads [ranges[1]] of a
    one-element vector. *)
Example overrun_run :
  scanCallback poly_cosf poly_sinf (fst (LidarVisualizer_new true))
    (scan_of (F32.of_int 10) F32.one F32.zero (F32.of_int 10) [F32.one])
  = Undefined (OutOfBounds 1).
Proof. vm_compute. reflexivity. Qed.

Lemma sample_count_on_defined t scan c :
  sample_count scan = Ok c [] -> sample_count_on t scan = c.
Proof.
  unfold sample_count, sample_count_on, static_cast_int, convert_on.
  destruct (F32.to_int _) as [z|]; [|discriminate].
  unfold ret. rewrite bind_ret_l. intros H. inversion H. reflexivity.
Qed.

(** C2. With [time_increment = 0] the quotient [scan_time / time_increment]
    is an infinity or a NaN, whose conversion to [int] is undefined: the
    [count <= 0] test that should select the fallback is reached only
    through undefined behaviour. What happens then depends on the target:
    the x86-64 conversion yields [INT_MIN] and the fallback is taken; the
    AArch64 conversion saturates, so a positive [scan_time] gives the count
    [INT_MAX] and no fallback. *)
Theorem zero_time_increment_count_undefined cosf sinf self scan s :
  time_increment scan = S754_zero s ->
  (exists f,
     F32.trunc f = None
     /\ sample_count scan = Undefined (FloatToInt f)
     /\ scanCallback cosf sinf self scan = Undefined (FloatToInt f))
  /\ sample_count_on X86_64 scan = int_of_size_t (List.length (ranges scan))
  /\ (forall s' m e,
        scan_time scan = S754_finite s' m e ->
        sample_count_on AArch64 scan
        = if xorb s' s then int_of_size_t (List.length (ranges scan))
          else INT_MAX).
Proof.
  intros Hti. split; [|split].
  - exists (F32.div (scan_time scan) (time_increment scan)).
    assert (Ht : F32.trunc (F32.div (scan_time scan) (time_increment scan))
                 = None) by (rewrite Hti; apply div_by_zero_not_finite).
    assert (Hs : sample_count scan
                 = Undefined (FloatToInt (F32.div (scan_time scan)
                                                  (time_increment scan)))).
    { unfold sample_count, static_cast_int, F32.to_int. rewrite Ht.
      reflexivity. }
    split; [exact Ht|]. split; [exact Hs|].
    unfold scanCallback, render. rewrite Hs. reflexivity.
  - unfold sample_count_on. rewrite Hti.
    destruct (scan_time scan) as [[]|[]| |[] m e]; reflexivity.
  - intros s' m e Hst. unfold sample_count_on. rewrite Hti, Hst.
    destruct s', s; reflexivity.
Qed.

Lemma zero_time_increment_count_undefined_witness :
  let node := fst (LidarVisualizer_new true) in
  let scan := scan_of F32.one F32.zero F32.zero (F32.of_int 10) [F32.one] in
  time_increment scan = S754_zero false
  /\ scan_time scan = S754_finite false 8388608 (-23)
  /\ sample_count scan = Undefined (FloatToInt (S754_infinity false))
  /\ scanCallback poly_cosf poly_sinf node scan
     = Undefined (FloatToInt (S754_infinity false))
  /\ sample_count_on X86_64 scan = 1
  /\ sample_count_on AArch64 scan = 2147483647.
Proof.
  intros node scan.
  destruct (zero_time_increment_count_undefined poly_cosf poly_sinf node scan
              false eq_refl) as ((f & _ & Hs & Hc) & Hx & Ha).
  assert (E : f = S754_infinity false).
  { assert (H : sample_count scan
                = Undefined (FloatToInt (S754_infinity false)))
      by reflexivity.
    rewrite H in Hs. injection Hs as Hs. symmetry. exact Hs. }
  subst f.
  split; [reflexivity|]. split; [reflexivity|]. split; [exact Hs|].
  split; [exact Hc|]. split; [exact Hx|].
  exact (Ha false 8388608%positive (-23) eq_refl).
Defined.

(** The quotient of that message is [+inf]. *)
Example zero_time_increment_run :
  sample_count (scan_of F32.one F32.zero F32.zero (F32.of_int 10) [F32.one])
  = Undefined (FloatToInt (S754_infinity false)).
Proof. reflexivity. Qed.

(** C4 (as amended). When the truncated quotient
    [scan_time / time_increment] is an [int] and [ranges] holds at most
    [INT_MAX] entries, the count is that value if it is positive and the
    number of ranges otherwise; with [scan_time = 0] and
    [time_increment = 1] the count is the number of ranges and a callback
    that completes has visited exactly that many samples. *)
Theorem sample_count_policy :
  (forall scan c,
     F32.to_int (F32.div (scan_time scan) (time_increment scan)) = Some c ->
     Z.of_nat (List.length (ranges scan)) <= INT_MAX ->
     F32.trunc (F32.div (scan_time scan) (time_increment scan)) = Some c
     /\ sample_count scan
        = Ok (if 0 <? c then c else Z.of_nat (List.length (ranges scan))) [])
  /\
  (forall cosf sinf self scan s,
     scan_time scan = S754_zero s ->
     time_increment scan = F32.one ->
     Z.of_nat (List.length (ranges scan)) <= INT_MAX ->
     sample_count scan = Ok (Z.of_nat (List.length (ranges scan))) []
     /\ forall self' tr,
          scanCallback cosf sinf self scan = Ok self' tr ->
          List.length (filter is_visit tr) = List.length (ranges scan)).
Proof.
  split.
  - intros scan c Hc Hlen. split; [apply to_int_trunc, Hc|].
    rewrite (sample_count_defined _ _ Hc), int_of_size_t_small by exact Hlen.
    destruct (Z.leb_spec c 0), (Z.ltb_spec 0 c); try lia; reflexivity.
  - intros cosf sinf self scan s Hst Hti Hlen.
    assert (Hq : F32.to_int (F32.div (scan_time scan) (time_increment scan))
                 = Some 0) by (rewrite Hst, Hti; destruct s; reflexivity).
    assert (Hs : sample_count scan
                 = Ok (Z.of_nat (List.length (ranges scan))) []).
    { rewrite (sample_count_defined _ _ Hq), int_of_size_t_small by exact Hlen.
      reflexivity. }
    split; [exact Hs|].
    intros self' tr H. apply scanCallback_visits in H as (c & Hc & Hv).
    rewrite Hs in Hc. inversion Hc; subst. rewrite Hv. apply Nat2Z.id.
Qed.

Lemma sample_count_policy_witness :
  let node := fst (LidarVisualizer_new true) in
  let scan := scan_of F32.zero F32.one F32.zero (F32.of_int 10)
                      [F32.one; F32.of_int 2; F32.of_int 30] in
  sample_count scan = Ok 3 []
  /\ sample_count (scan_of (F32.of_int 7) (F32.of_int 2) F32.zero
                           (F32.of_int 10) [F32.one]) = Ok 3 []
  /\ exists self' tr,
       scanCallback poly_cosf poly_sinf node scan = Ok self' tr
       /\ List.length (filter is_visit tr) = 3%nat.
Proof.
  intros node scan.
  assert (Hlen : Z.of_nat (List.length (ranges scan)) <= INT_MAX)
    by (unfold INT_MAX; simpl; lia).
  destruct (proj2 sample_count_policy poly_cosf poly_sinf node scan false
              eq_refl eq_refl Hlen) as [Hs Hv].
  split; [exact Hs|]. split.
  - refine (proj2 (proj1 sample_count_policy
                     (scan_of (F32.of_int 7) (F32.of_int 2) F32.zero
                              (F32.of_int 10) [F32.one]) 3 eq_refl _)).
    unfold INT_MAX; simpl; lia.
  - destruct (scanCallback poly_cosf poly_sinf node scan) as [self' tr|u] eqn:E.
    + exists self', tr. split; [reflexivity|]. exact (Hv self' tr eq_refl).
    + exfalso. revert E. vm_compute. discriminate.
Defined.

(** C4 (as stated) fails: with [scan_time = 3e9] and [time_increment = 1]
    the quotient is 3e9 and its truncation, 3000000000, is positive, yet it
    is not the count: it is no [int], so the conversion of line 41 is
    undefined, and with the conversions of the actual targets the count is
    the number of ranges (x86-64) or [INT_MAX] (AArch64). *)
Lemma positive_quotient_is_not_the_count :
  let scan := scan_of (F32.of_int 3000000000) F32.one F32.zero
                      (F32.of_int 10) [F32.one] in
  let q := F32.div (scan_time scan) (time_increment scan) in
  F32.trunc q = Some 3000000000
  /\ 0 < 3000000000
  /\ sample_count scan = Undefined (FloatToInt q)
  /\ sample_count scan <> Ok 3000000000 []
  /\ sample_count_on X86_64 scan = Z.of_nat (List.length (ranges scan))
  /\ sample_count_on AArch64 scan = INT_MAX.
Proof.
  intros scan q.
  split; [reflexivity|]. split; [lia|]. split; [reflexivity|].
  split; [|split; reflexivity].
  intros H. vm_compute in H. discriminate H.
Qed.

(** ** Validation and clipping (lines 72-73 and 89-91) *)

Lemma rejected_true scan range :
  F32.ltb range (range_min scan) = true
  \/ F32.gtb range (range_max scan) = true
  \/ range = S754_nan ->
  rejected scan range = true.
Proof.
  unfold rejected. intros [H|[H|H]].
  - rewrite H. reflexivity.
  - rewrite H. apply orb_true_iff. left. apply orb_true_r.
  - subst. apply orb_true_r.
Qed.

(** C5. A range below [range_min], above [range_max] or NaN is rejected
    whatever the angle: the image is returned as it was, without error, and
    the loop goes on with the next index and the same image. *)
Theorem rejected_sample_is_skipped cosf sinf self scan angle range img :
  F32.ltb range (range_min scan) = true
  \/ F32.gtb range (range_max scan) = true
  \/ range = S754_nan ->
  plot_sample cosf sinf self scan angle range img = Ok img []
  /\ forall n i,
       vector_at (ranges scan) i = Ok range [] ->
       loop cosf sinf self scan (S n) i img
       = (emit (LogDebugSample (RAD2DEG (sample_angle scan i)) range) ;;;
          loop cosf sinf self scan n (i + 1) img).
Proof.
  intros H. apply rejected_true in H.
  assert (Hp : forall a, plot_sample cosf sinf self scan a range img
                         = Ok img []).
  { intros a. unfold plot_sample. rewrite H. reflexivity. }
  split; [apply Hp|].
  intros n i Hv.
  rewrite loop_S, (loop_body_reads _ _ _ _ _ _ _ Hv), Hp.
  unfold emit, bind. simpl.
  destruct (loop cosf sinf self scan n (i + 1) img); reflexivity.
Qed.

Lemma rejected_sample_is_skipped_witness :
  let node := fst (LidarVisualizer_new true) in
  let scan := scan_of F32.zero F32.one F32.one (F32.of_int 10)
                      [S754_nan; F32.of_int 11] in
  (F32.ltb S754_nan (range_min scan) = true
   \/ F32.gtb S754_nan (range_max scan) = true
   \/ S754_nan = S754_nan)
  /\ plot_sample poly_cosf poly_sinf node scan F32.one S754_nan
       (background node) = Ok (background node) [].
Proof.
  intros node scan.
  assert (H : F32.ltb S754_nan (range_min scan) = true
              \/ F32.gtb S754_nan (range_max scan) = true
              \/ S754_nan = S754_nan) by (right; right; reflexivity).
  split; [exact H|].
  exact (proj1 (rejected_sample_is_skipped poly_cosf poly_sinf node scan
                  F32.one S754_nan (background node) H)).
Defined.

(** A frame whose two samples are a NaN and a range beyond [range_max]
    completes with the bare background. *)
Example rejected_run :
  render poly_cosf poly_sinf (fst (LidarVisualizer_new true))
    (scan_of F32.zero F32.one F32.one (F32.of_int 10)
             [S754_nan; F32.of_int 11])
  = Ok (background (fst (LidarVisualizer_new true)))
       [LogInfoScan "laser" 2;
        LogInfoAngleRange (S754_zero false) (S754_zero false);
        LogDebugSample (S754_zero false) S754_nan;
        LogDebugSample (S754_zero false) (F32.of_int 11)].
Proof. vm_compute. reflexivity. Qed.

Lemma in_image_iff self px py :
  in_image self px py = true
  <-> 0 <= px < img_size_ self /\ 0 <= py < img_size_ self.
Proof.
  unfold in_image. rewrite !andb_true_iff, !Z.leb_le, !Z.ltb_lt. lia.
Qed.

Lemma snoc_neq {A} (l : list A) (a : A) : l ++ [a] <> l.
Proof.
  intros H. apply (f_equal (@List.length A)) in H.
  rewrite length_app in H. simpl in H. lia.
Qed.

(** C6. The disc is added exactly when both coordinates are inside
    [[0, img_size_)]; otherwise the image is returned untouched. For the
    500-pixel image of the node, 499 is drawn and 500 and -1 are not. The
    iteration of an accepted sample ends with this clipping and no error. *)
Theorem disc_drawn_iff_inside_image :
  (forall self img px py,
     (plot self img px py = cv_circle img (mkPoint px py) 2 red (-1)
      <-> 0 <= px < img_size_ self /\ 0 <= py < img_size_ self)
     /\ (~ (0 <= px < img_size_ self /\ 0 <= py < img_size_ self) ->
         plot self img px py = img))
  /\
  (forall open_ok img c,
     let node := fst (LidarVisualizer_new open_ok) in
     0 <= c < 500 ->
     plot node img 499 c = cv_circle img (mkPoint 499 c) 2 red (-1)
     /\ plot node img c 499 = cv_circle img (mkPoint c 499) 2 red (-1)
     /\ plot node img 500 c = img /\ plot node img c 500 = img
     /\ plot node img (-1) c = img /\ plot node img c (-1) = img)
  /\
  (forall cosf sinf self scan angle range img px py,
     rejected scan range = false ->
     to_pixel cosf sinf self angle range = Ok (px, py) [] ->
     plot_sample cosf sinf self scan angle range img
     = Ok (plot self img px py) []).
Proof.
  assert (G : forall self img px py,
    (plot self img px py = cv_circle img (mkPoint px py) 2 red (-1)
      <-> 0 <= px < img_size_ self /\ 0 <= py < img_size_ self)
     /\ (~ (0 <= px < img_size_ self /\ 0 <= py < img_size_ self) ->
         plot self img px py = img)).
  { intros self img px py. unfold plot.
    destruct (in_image self px py) eqn:E.
    - apply in_image_iff in E. split; [tauto|]. intros H. contradiction.
    - assert (N : ~ (0 <= px < img_size_ self /\ 0 <= py < img_size_ self)).
      { intros H. apply in_image_iff in H. congruence. }
      split; [|reflexivity]. split; [|tauto].
      intros H. apply (f_equal drawn) in H. simpl in H.
      symmetry in H. apply snoc_neq in H. contradiction. }
  split; [exact G|]. split.
  - intros open_ok img c node Hc.
    assert (S : img_size_ node = 500) by reflexivity.
    repeat split;
      first [ apply (proj1 (G node img _ _)); rewrite S; lia
            | apply (proj2 (G node img _ _)); rewrite S; lia ].
  - intros cosf sinf self scan angle range img px py Hr Hp.
    unfold plot_sample. rewrite Hr, Hp, bind_ret_l. reflexivity.
Qed.

Lemma disc_drawn_iff_inside_image_witness :
  let node := fst (LidarVisualizer_new true) in
  0 <= 250 < 500
  /\ plot node (background node) 499 250
     = cv_circle (background node) (mkPoint 499 250) 2 red (-1)
  /\ plot node (background node) 500 250 = background node
  /\ plot node (background node) 250 (-1) = background node.
Proof.
  intros node.
  assert (H : 0 <= 250 < 500) by lia.
  destruct (proj1 (proj2 disc_drawn_iff_inside_image) true (background node)
              250 H) as (H1 & _ & H3 & _ & _ & H6).
  split; [exact H|]. split; [exact H1|]. split; [exact H3|exact H6].
Defined.

(** ** The angle (lines 63-91) *)




(** ** Frames (lines 52-60 and 95-101) *)

Lemma loop_view cosf sinf self1 self2 scan :
  view self1 = view self2 ->
  forall n i img,
    loop cosf sinf self1 scan n i img = loop cosf sinf self2 scan n i img.
Proof.
  destruct self1 as [s1 m1 c1 w1], self2 as [s2 m2 c2 w2].
  unfold view. simpl. intros H. inversion H; subst.
  induction n as [|n IH]; intros i img; [reflexivity|].
  rewrite !loop_S.
  replace (loop_body cosf sinf (mkLidarVisualizer s2 m2 c2 w1) scan i img)
    with (loop_body cosf sinf (mkLidarVisualizer s2 m2 c2 w2) scan i img)
    by reflexivity.
  unfold bind. destruct (loop_body _ _ _ _ _ _); [|reflexivity].
  rewrite IH. reflexivity.
Qed.

Lemma render_view cosf sinf self1 self2 scan :
  view self1 = view self2 ->
  render cosf sinf self1 scan = render cosf sinf self2 scan.
Proof.
  intros H. unfold render.
  assert (B : background self1 = background self2).
  { unfold background. unfold view in H. inversion H as [[H1 H2 H3]].
    rewrite H1, H3. reflexivity. }
  rewrite B. unfold bind.
  destruct (sample_count scan) as [c t|u]; [|reflexivity].
  destruct (emit _) as [[] t1|u1]; [|reflexivity].
  destruct (emit _) as [[] t2|u2].
  - rewrite (loop_view cosf sinf self1 self2 scan H). reflexivity.
  - reflexivity.
Qed.

Lemma plot_sample_draws cosf sinf self scan angle range img img' tr :
  plot_sample cosf sinf self scan angle range img = Ok img' tr ->
  img' = img \/ exists p, img' = cv_circle img p 2 red (-1).
Proof.
  unfold plot_sample. destruct (rejected scan range).
  - intros H. inversion H. auto.
  - intros H. apply bind_Ok_inv in H as ([px py] & t1 & t2 & _ & H & _).
    inversion H; subst. unfold plot. simpl.
    destruct (in_image self px py); [right; eexists; reflexivity|auto].
Qed.

(** The loop only ever appends discs, and only logs visits. *)
Lemma loop_draws cosf sinf self scan n : forall i img img' tr,
  loop cosf sinf self scan n i img = Ok img' tr ->
  rows img' = rows img /\ cols img' = cols img /\ fill img' = fill img
  /\ (exists discs, drawn img' = drawn img ++ discs /\ Forall is_disc discs)
  /\ Forall (fun e => is_visit e = true) tr.
Proof.
  induction n as [|n IH]; intros i img img' tr H.
  - inversion H; subst. repeat split; auto.
    exists []. rewrite app_nil_r. auto.
  - rewrite loop_S in H.
    apply bind_Ok_inv in H as (img1 & t1 & t2 & Hb & Hl & ->).
    apply loop_body_Ok in Hb as (range & _ & Hp & ->).
    apply IH in Hl as (Hr & Hc & Hf & (discs & Hd & HF) & Ht).
    assert (Ht' : Forall (fun e => is_visit e = true)
              ([LogDebugSample (RAD2DEG (sample_angle scan i)) range] ++ t2))
      by (constructor; [reflexivity|exact Ht]).
    apply plot_sample_draws in Hp as [->|(p & ->)].
    + repeat split; auto. exists discs. auto.
    + simpl in *. repeat split; auto.
      exists (Circle p 2 red (-1) :: discs). split.
      * rewrite Hd, <- app_assoc. reflexivity.
      * constructor; [exists p; reflexivity|exact HF].
Qed.

Lemma visits_are_silent tr :
  Forall (fun e => is_visit e = true) tr ->
  shown tr = [] /\ filter is_warning tr = [] /\ filter is_video_open tr = [].
Proof.
  induction 1 as [|e tr He _ (IH1 & IH2 & IH3)]; [auto|].
  destruct e; try discriminate. simpl. auto.
Qed.

Lemma render_Ok cosf sinf self scan img tr :
  render cosf sinf self scan = Ok img tr ->
  rows img = img_size_ self /\ cols img = img_size_ self /\ fill img = white
  /\ (exists discs,
        drawn img = drawn (background self) ++ discs /\ Forall is_disc discs)
  /\ shown tr = [] /\ filter is_warning tr = []
  /\ filter is_video_open tr = [].
Proof.
  unfold render. intros H.
  apply bind_Ok_inv in H as (c & t1 & t2 & Hc & H & ->).
  apply bind_Ok_inv in H as ([] & t3 & t4 & He1 & H & ->).
  apply bind_Ok_inv in H as ([] & t5 & t6 & He2 & H & ->).
  inversion He1; inversion He2; subst.
  apply loop_draws in H as (Hr & Hcl & Hf & Hd & Ht).
  apply visits_are_silent in Ht as (S1 & S2 & S3).
  assert (t1 = []) as ->.
  { unfold sample_count in Hc.
    apply bind_Ok_inv in Hc as (c0 & t7 & t8 & Hs & Hr' & ->).
    unfold static_cast_int in Hs. destruct (F32.to_int _); [|discriminate].
    inversion Hs; inversion Hr'; reflexivity. }
  simpl. repeat split; auto.
Qed.

Lemma view_new self open_ok :
  view self = view (fst (LidarVisualizer_new open_ok)) ->
  img_size_ self = 500 /\ center_ self = mkPoint 250 250.
Proof.
  intros Hv. split.
  - exact (f_equal (fun v => fst (fst v)) Hv).
  - exact (f_equal snd Hv).
Qed.

Lemma render_frame_shape cosf sinf self scan img tr :
  view self = view (fst (LidarVisualizer_new true)) ->
  render cosf sinf self scan = Ok img tr -> frame_shape img.
Proof.
  intros Hv H. apply render_Ok in H as (Hr & Hc & Hf & (discs & Hd & HF) & _).
  apply view_new in Hv as [Hs Hce].
  unfold frame_shape. rewrite Hr, Hc, Hs. repeat split; auto.
  exists discs. split; [|exact HF].
  rewrite Hd. unfold background. rewrite Hce. reflexivity.
Qed.

(** What one callback does to the node and to the trace. *)
Lemma scanCallback_Ok cosf sinf self scan self' tr :
  scanCallback cosf sinf self scan = Ok self' tr ->
  exists img t,
    render cosf sinf self scan = Ok img t
    /\ tr = t ++ [ImShow "Lidar Scan" img; WaitKey 1]
    /\ view self' = view self
    /\ isOpened (video_writer_ self') = isOpened (video_writer_ self)
    /\ frames (video_writer_ self')
       = frames (video_writer_ self)
         ++ (if isOpened (video_writer_ self) then [img] else []).
Proof.
  unfold scanCallback. intros H.
  apply bind_Ok_inv in H as (img & t1 & t2 & Hr & Hs & ->).
  exists img, t1. split; [exact Hr|].
  unfold sink, emit, bind, ret in Hs. inversion Hs; subst. clear Hs.
  split; [reflexivity|].
  destruct (isOpened (video_writer_ self)) eqn:E; simpl.
  - auto.
  - rewrite E, app_nil_r. auto.
Qed.

Lemma shown_app t1 t2 : shown (t1 ++ t2) = shown t1 ++ shown t2.
Proof.
  induction t1 as [|e t1 IH]; [reflexivity|].
  destruct e; simpl; rewrite ?IH; reflexivity.
Qed.

(** The invariant of [spin]: the view and the state of the writer never
    change, nothing is logged above INFO, one image is shown per message,
    and the writer receives the shown images when it is open. *)
Lemma spin_Ok cosf sinf msgs : forall self node tr,
  spin cosf sinf self msgs = Ok node tr ->
  view node = view self
  /\ isOpened (video_writer_ node) = isOpened (video_writer_ self)
  /\ filter is_warning tr = [] /\ filter is_video_open tr = []
  /\ List.length (shown tr) = List.length msgs
  /\ frames (video_writer_ node)
     = frames (video_writer_ self)
       ++ (if isOpened (video_writer_ self) then shown tr else [])
  /\ (view self = view (fst (LidarVisualizer_new true)) ->
      Forall frame_shape (shown tr)).
Proof.
  induction msgs as [|scan rest IH]; intros self node tr H.
  - injection H as Hn Ht. subst node tr. simpl.
    destruct (isOpened (video_writer_ self)); rewrite app_nil_r; auto 10.
  - simpl in H. apply bind_Ok_inv in H as (self1 & t1 & t2 & Hc & Hs & ->).
    apply scanCallback_Ok in Hc as (img & t & Hr & -> & Hv1 & Ho1 & Hf1).
    apply IH in Hs as (Hv & Ho & Hw & Hvo & Hl & Hf & Hshape).
    pose proof (render_Ok _ _ _ _ _ _ Hr) as (_ & _ & _ & _ & S1 & S2 & S3).
    rewrite !filter_app, !shown_app, S1, S2, S3, Hw, Hvo. simpl.
    split; [congruence|]. split; [congruence|].
    split; [reflexivity|]. split; [reflexivity|].
    split; [f_equal; exact Hl|]. split.
    + rewrite Hf, Hf1, Ho1.
      destruct (isOpened (video_writer_ self));
        [rewrite <- app_assoc|rewrite !app_nil_r]; reflexivity.
    + intros Hview. constructor.
      * eapply render_frame_shape; eassumption.
      * apply Hshape. rewrite Hv1. exact Hview.
Qed.

(** Whether the writer is open has no influence on the run. *)
Lemma spin_view cosf sinf msgs : forall self1 self2 node tr,
  view self1 = view self2 ->
  spin cosf sinf self1 msgs = Ok node tr ->
  exists node', spin cosf sinf self2 msgs = Ok node' tr.
Proof.
  induction msgs as [|scan rest IH]; intros self1 self2 node tr Hv H.
  - inversion H; subst. eexists. reflexivity.
  - simpl in H. apply bind_Ok_inv in H as (s1 & t1 & t2 & Hc & Hs & ->).
    pose proof (scanCallback_Ok _ _ _ _ _ _ Hc)
      as (img & t & Hr & -> & Hv1 & _).
    assert (Hc2 : exists s2,
      scanCallback cosf sinf self2 scan
      = Ok s2 (t ++ [ImShow "Lidar Scan" img; WaitKey 1])
      /\ view s2 = view self2).
    { unfold scanCallback.
      rewrite <- (render_view cosf sinf self1 self2 scan Hv), Hr.
      unfold sink, emit, bind, ret. eexists. split; [reflexivity|].
      destruct (isOpened (video_writer_ self2)); reflexivity. }
    destruct Hc2 as (s2 & Hc2 & Hv2).
    destruct (IH s1 s2 node t2) as (node' & Hs2); [congruence|exact Hs|].
    exists node'. simpl. apply (bind_Ok _ _ _ _ _ _ Hc2 Hs2).
Qed.

(** C8. Every image the node shows or records is the white 500x500 canvas
    with the same black cross at (250, 250) followed only by discs, whatever
    the messages were; and the image of a message depends on the view
    configuration and the message alone, not on earlier frames. *)
Theorem every_frame_is_fresh cosf sinf :
  (forall open_ok msgs node tr,
     spin cosf sinf (fst (LidarVisualizer_new open_ok)) msgs = Ok node tr ->
     Forall frame_shape (shown tr)
     /\ Forall frame_shape (frames (video_writer_ node)))
  /\ (forall self1 self2 scan,
        view self1 = view self2 ->
        render cosf sinf self1 scan = render cosf sinf self2 scan).
Proof.
  split; [|intros; apply render_view; assumption].
  intros open_ok msgs node tr H.
  apply spin_Ok in H as (_ & _ & _ & _ & _ & Hf & Hs).
  assert (S : Forall frame_shape (shown tr)) by (apply Hs; reflexivity).
  split; [exact S|].
  rewrite Hf. destruct open_ok; simpl; [exact S|constructor].
Qed.

Lemma every_frame_is_fresh_witness :
  let msgs := [scan_of F32.zero F32.one F32.zero (F32.of_int 10) [F32.one];
               scan_of F32.zero F32.one F32.zero (F32.of_int 10)
                       [F32.of_int 2; S754_nan]] in
  exists node tr,
    spin poly_cosf poly_sinf (fst (LidarVisualizer_new true)) msgs = Ok node tr
    /\ List.length (shown tr) = 2%nat
    /\ Forall frame_shape (shown tr)
    /\ Forall frame_shape (frames (video_writer_ node)).
Proof.
  intros msgs.
  destruct (spin poly_cosf poly_sinf (fst (LidarVisualizer_new true)) msgs)
    as [node tr|u] eqn:E.
  - exists node, tr. split; [reflexivity|]. split.
    + revert E. vm_compute. intros E. injection E as _ <-. reflexivity.
    + exact (proj1 (every_frame_is_fresh poly_cosf poly_sinf)
               true msgs node tr E).
  - exfalso. revert E. vm_compute. discriminate.
Defined.

Lemma main_Ok cosf sinf open_ok msgs z tr :
  main cosf sinf open_ok msgs = Ok z tr ->
  exists node t,
    spin cosf sinf (fst (LidarVisualizer_new open_ok)) msgs = Ok node t
    /\ tr = snd (LidarVisualizer_new open_ok) ++ t ++ [DestroyAllWindows]
    /\ z = 0.
Proof.
  unfold main. destruct (LidarVisualizer_new open_ok) as [node0 startup].
  intros H.
  apply bind_Ok_inv in H as ([] & t1 & t2 & H1 & H & ->).
  apply bind_Ok_inv in H as (node & t3 & t4 & H2 & H & ->).
  apply bind_Ok_inv in H as ([] & t5 & t6 & H3 & H & ->).
  inversion H1; inversion H3; inversion H; subst.
  exists node, t3. rewrite app_nil_r. auto.
Qed.

(** C9. A writer that failed to open is reported by one warning of the
    constructor, the only warning of the whole run; over any run the
    callbacks log no warning, never reopen the writer, leave it closed and
    empty, and show one image per message, the same images as a node whose
    writer opened. An open writer receives exactly the images shown, one
    per message, in order. *)
Theorem failed_writer_is_a_permanent_noop cosf sinf msgs :
  (forall tr,
     main cosf sinf false msgs = Ok 0 tr ->
     filter is_warning tr
     = [LogWarn "Failed to open video writer, video will not be saved."]
     /\ List.length (filter is_video_open tr) = 1%nat)
  /\ filter is_warning (snd (LidarVisualizer_new true)) = []
  /\ (forall open_ok node tr,
        spin cosf sinf (fst (LidarVisualizer_new open_ok)) msgs = Ok node tr ->
        filter is_warning tr = [] /\ filter is_video_open tr = []
        /\ isOpened (video_writer_ node) = open_ok
        /\ List.length (shown tr) = List.length msgs
        /\ frames (video_writer_ node) = (if open_ok then shown tr else []))
  /\ (forall node tr,
        spin cosf sinf (fst (LidarVisualizer_new true)) msgs = Ok node tr ->
        exists node',
          spin cosf sinf (fst (LidarVisualizer_new false)) msgs = Ok node' tr).
Proof.
  split; [|split; [reflexivity|split]].
  - intros tr H. apply main_Ok in H as (node & t & Hs & -> & _).
    apply spin_Ok in Hs as (_ & _ & Hw & Hvo & _).
    rewrite !filter_app, Hw, Hvo. split; reflexivity.
  - intros open_ok node tr H.
    apply spin_Ok in H as (_ & Ho & Hw & Hvo & Hl & Hf & _).
    repeat split; auto.
  - intros node tr H.
    apply (spin_view cosf sinf msgs (fst (LidarVisualizer_new true))
             (fst (LidarVisualizer_new false)) node tr); [reflexivity|exact H].
Qed.

Lemma failed_writer_is_a_permanent_noop_witness :
  let msgs := [scan_of F32.zero F32.one F32.zero (F32.of_int 10) [F32.one];
               scan_of F32.zero F32.one F32.zero (F32.of_int 10)
                       [F32.of_int 2; S754_nan]] in
  exists node tr,
    spin poly_cosf poly_sinf (fst (LidarVisualizer_new false)) msgs = Ok node tr
    /\ filter is_warning tr = []
    /\ isOpened (video_writer_ node) = false
    /\ List.length (shown tr) = 2%nat
    /\ frames (video_writer_ node) = [].
Proof.
  intros msgs.
  destruct (spin poly_cosf poly_sinf (fst (LidarVisualizer_new false)) msgs)
    as [node tr|u] eqn:E.
  - exists node, tr. split; [reflexivity|].
    destruct (proj1 (proj2 (proj2 (failed_writer_is_a_permanent_noop
                poly_cosf poly_sinf msgs))) false node tr E)
      as (H1 & _ & H3 & H4 & H5).
    split; [exact H1|]. split; [exact H3|]. split; [exact H4|exact H5].
  - exfalso. revert E. vm_compute. discriminate.
Defined.

(** ** Rounding

    Facts about [SpecFloat]'s rounding at binary32. Rounding to nearest
    cannot fall below a binary32 number that the exact value reaches: a
    result is at least [L * 2^l], for a 24-bit [L], as soon as the exact
    product, quotient or sum is. *)

Lemma digits2_pos_size p : digits2_pos p = Pos.size p.
Proof. induction p; simpl; congruence. Qed.

Lemma Zdigits2_log2 p : Zpos (digits2_pos p) = Z.log2 (Zpos p) + 1.
Proof.
  destruct p; simpl; rewrite ?digits2_pos_size, ?Pos2Z.inj_succ; lia.
Qed.

Lemma Zdigits2_pos_log2 m : 0 < m -> Zdigits2 m = Z.log2 m + 1.
Proof. destruct m; try lia. intros _. apply Zdigits2_log2. Qed.

Lemma pow2_pos a : 0 <= a -> 0 < 2 ^ a.
Proof. intros. apply Z.pow_pos_nonneg; lia. Qed.

Lemma pow2_ge_2 a : 0 < a -> 2 <= 2 ^ a.
Proof.
  intros H. change 2 with (2 ^ 1) at 1. apply Z.pow_le_mono_r; lia.
Qed.

Lemma pow2_add a b : 0 <= a -> 0 <= b -> 2 ^ (a + b) = 2 ^ a * 2 ^ b.
Proof. intros. apply Z.pow_add_r; assumption. Qed.

Lemma fexp32 d : -125 <= d -> fexp F32.prec F32.emax d = d - 24.
Proof. unfold fexp, emin, F32.prec, F32.emax. lia. Qed.

Lemma iter_xO m d : Zpos (Pos.iter xO m d) = Zpos m * 2 ^ Zpos d.
Proof.
  induction d as [|d IH] using Pos.peano_ind.
  - simpl. lia.
  - rewrite Pos.iter_succ, Pos2Z.inj_xO, IH, Pos2Z.inj_succ, Z.pow_succ_r
      by lia.
    ring.
Qed.

Lemma shl_align_spec mx ex ex' :
  shl_align mx ex ex' = (fst (shl_align mx ex ex'), Z.min ex ex')
  /\ Zpos (fst (shl_align mx ex ex')) = Zpos mx * 2 ^ (ex - Z.min ex ex').
Proof.
  unfold shl_align. destruct (ex' - ex) as [|d|d] eqn:E; cbn [fst].
  - replace (Z.min ex ex') with ex by lia.
    rewrite Z.sub_diag, Z.pow_0_r. split; [reflexivity|lia].
  - pose proof (Pos2Z.is_pos d). replace (Z.min ex ex') with ex by lia.
    rewrite Z.sub_diag, Z.pow_0_r. split; [reflexivity|lia].
  - pose proof (Pos2Z.neg_is_neg d).
    replace (Z.min ex ex') with ex' by lia. split; [reflexivity|].
    rewrite iter_xO. f_equal. f_equal. lia.
Qed.

Lemma shr_1_m r : 0 <= shr_m r -> shr_m (shr_1 r) = shr_m r / 2.
Proof.
  destruct r as [m rb sb]. unfold shr_1. cbn [shr_m]. intros H.
  destruct m as [|[p|p|]|p]; cbn [shr_m]; try lia.
  - apply Z.div_unique with 0; lia.
  - apply Z.div_unique with 1; lia.
  - apply Z.div_unique with 0; lia.
  - apply Z.div_unique with 1; lia.
Qed.

Lemma iter_shr_1_m p : forall r,
  0 <= shr_m r -> shr_m (iter_pos shr_1 p r) = shr_m r / 2 ^ Zpos p.
Proof.
  assert (P : forall k, 0 < 2 ^ Zpos k)
    by (intros; apply Z.pow_pos_nonneg; lia).
  induction p as [p IH|p IH|]; intros r Hr; simpl iter_pos.
  - assert (H1 : 0 <= shr_m (shr_1 r))
      by (rewrite shr_1_m by lia; apply Z.div_pos; lia).
    assert (H2 : 0 <= shr_m (iter_pos shr_1 p (shr_1 r)))
      by (rewrite IH by lia; apply Z.div_pos; [lia|apply P]).
    rewrite IH, IH, shr_1_m by lia.
    rewrite !Z.div_div by (pose proof (P p); lia).
    f_equal. rewrite (Pos2Z.inj_xI p).
    replace (2 * Zpos p + 1) with (1 + Zpos p + Zpos p) by lia.
    rewrite !Z.pow_add_r, Z.pow_1_r by lia. ring.
  - assert (H2 : 0 <= shr_m (iter_pos shr_1 p r))
      by (rewrite IH by lia; apply Z.div_pos; [lia|apply P]).
    rewrite IH, IH by lia.
    rewrite Z.div_div by (pose proof (P p); lia).
    f_equal. rewrite (Pos2Z.inj_xO p).
    replace (2 * Zpos p) with (Zpos p + Zpos p) by lia.
    rewrite Z.pow_add_r by lia. ring.
  - rewrite Z.pow_1_r. apply shr_1_m. exact Hr.
Qed.

Lemma shr_fexp_m m e l r e' :
  0 < m -> shr_fexp F32.prec F32.emax m e l = (r, e') ->
  shr_m r = m / 2 ^ Z.max 0 (fexp F32.prec F32.emax (Zdigits2 m + e) - e)
  /\ e' = e + Z.max 0 (fexp F32.prec F32.emax (Zdigits2 m + e) - e).
Proof.
  intros Hm. unfold shr_fexp, shr.
  set (n := fexp F32.prec F32.emax (Zdigits2 m + e) - e).
  assert (M : shr_m (shr_record_of_loc m l) = m)
    by (destruct l as [|[]]; reflexivity).
  destruct n as [|p|p]; intros H; inversion H; subst.
  - rewrite M. simpl. rewrite Z.div_1_r. lia.
  - rewrite iter_shr_1_m, M by lia.
    replace (Z.max 0 (Zpos p)) with (Zpos p) by lia. split; reflexivity.
  - rewrite M.
    replace (Z.max 0 (Zneg p)) with 0 by lia. rewrite Z.pow_0_r, Z.div_1_r. lia.
Qed.

Lemma round_nearest_even_cases m l :
  round_nearest_even m l = m \/ round_nearest_even m l = m + 1.
Proof.
  destruct l as [|[]]; simpl; auto. destruct (Z.even m); auto.
Qed.

Lemma binary_round_aux_sign s m e l :
  let r := binary_round_aux F32.prec F32.emax s m e l in
  r = S754_zero s \/ (exists m' e', r = S754_finite s m' e')
  \/ r = S754_infinity s \/ r = S754_nan.
Proof.
  unfold binary_round_aux.
  destruct (shr_fexp _ _ m e l) as [r1 e1].
  destruct (shr_fexp _ _ _ e1 loc_Exact) as [r2 e2].
  destruct (shr_m r2); [auto| |auto].
  destruct (e2 <=? _); eauto 6.
Qed.

(** Rounding with sign [false] never yields a negative result. *)
Lemma abs_round_aux m e l0 :
  SFabs (binary_round_aux F32.prec F32.emax false m e l0)
  = binary_round_aux F32.prec F32.emax false m e l0.
Proof.
  destruct (binary_round_aux_sign false m e l0)
    as [E|[(m' & e' & E)|[E|E]]]; rewrite E; reflexivity.
Qed.

Lemma abs_round mx ex :
  SFabs (binary_round F32.prec F32.emax false mx ex)
  = binary_round F32.prec F32.emax false mx ex.
Proof.
  unfold binary_round. destruct (shl_align _ _ _). apply abs_round_aux.
Qed.

Lemma le_scaled_at c m1 e1 m2 e2 :
  c <= e1 -> c <= e2 ->
  (le_scaled m1 e1 m2 e2 <-> m1 * 2 ^ (e1 - c) <= m2 * 2 ^ (e2 - c)).
Proof.
  intros H1 H2. unfold le_scaled.
  set (d := Z.min e1 e2).
  replace (e1 - c) with ((e1 - d) + (d - c)) by lia.
  replace (e2 - c) with ((e2 - d) + (d - c)) by lia.
  rewrite !Z.pow_add_r by lia.
  pose proof (pow2_pos (d - c) ltac:(lia)) as P.
  rewrite !Z.mul_assoc. split; intros H.
  - apply Z.mul_le_mono_nonneg_r; lia.
  - apply Z.mul_le_mono_pos_r in H; lia.
Qed.

Lemma le_scaled_elim c m1 e1 m2 e2 :
  c <= e1 -> c <= e2 -> le_scaled m1 e1 m2 e2 ->
  m1 * 2 ^ (e1 - c) <= m2 * 2 ^ (e2 - c).
Proof. intros H1 H2. apply le_scaled_at; assumption. Qed.

Lemma le_scaled_intro c m1 e1 m2 e2 :
  c <= e1 -> c <= e2 -> m1 * 2 ^ (e1 - c) <= m2 * 2 ^ (e2 - c) ->
  le_scaled m1 e1 m2 e2.
Proof. intros H1 H2. apply le_scaled_at; assumption. Qed.

Lemma le_scaled_zero m e : le_scaled 0 0 (Zpos m) e.
Proof.
  unfold le_scaled. pose proof (pow2_pos (e - Z.min 0 e) ltac:(lia)). nia.
Qed.

Lemma le_scaled_one m e :
  le_scaled 8388608 (-23) (Zpos m) e -> le_scaled 1 0 (Zpos m) e.
Proof.
  intros H. set (c := Z.min (-23) e).
  apply (le_scaled_elim c) in H; try lia.
  apply (le_scaled_intro c); [lia|lia|].
  replace (0 - c) with (23 + (-23 - c)) by lia.
  rewrite pow2_add by lia. change (2 ^ 23) with 8388608. lia.
Qed.

(** A number that is at least [L * 2^l], with [L] of [k] bits, has its
    leading bit at least as high. *)
Lemma le_scaled_digits k L l m e :
  0 < k -> 2 ^ (k - 1) <= L -> le_scaled L l (Zpos m) e ->
  l + k <= Z.log2 (Zpos m) + 1 + e.
Proof.
  intros Hk HL Hv.
  destruct (Z.log2_spec (Zpos m)) as [_ Hhi]; [lia|].
  remember (Z.log2 (Zpos m) + 1) as d eqn:Ed.
  replace (Z.succ (Z.log2 (Zpos m))) with d in Hhi by lia.
  assert (0 < d) by (pose proof (Z.log2_nonneg (Zpos m)); lia).
  destruct (Z.le_gt_cases (l + k) (d + e)) as [H'|H']; [exact H'|exfalso].
  apply (le_scaled_elim (Z.min l e)) in Hv; try lia.
  set (c := Z.min l e) in *.
  assert (H0 : 2 ^ (d + (e - c)) <= 2 ^ ((k - 1) + (l - c)))
    by (apply Z.pow_le_mono_r; lia).
  rewrite !pow2_add in H0 by lia.
  pose proof (pow2_pos (e - c) ltac:(lia)) as PX.
  pose proof (pow2_pos (l - c) ltac:(lia)) as PY.
  assert (Zpos m * 2 ^ (e - c) < 2 ^ d * 2 ^ (e - c))
    by (apply Z.mul_lt_mono_pos_r; assumption).
  assert (2 ^ (k - 1) * 2 ^ (l - c) <= L * 2 ^ (l - c))
    by (apply Z.mul_le_mono_nonneg_r; lia).
  lia.
Qed.

Lemma round_aux_ge s L l mz ez l0 :
  8388608 <= L < 16777216 -> -149 <= l ->
  24 <= Z.log2 (Zpos mz) + 1 ->
  le_scaled L l (Zpos mz) ez ->
  ge_val (SFabs (binary_round_aux F32.prec F32.emax s (Zpos mz) ez l0)) L l.
Proof.
  intros HL Hl Hd Hv.
  destruct (Z.log2_spec (Zpos mz)) as [Hlo Hhi]; [lia|].
  remember (Z.log2 (Zpos mz) + 1) as dz eqn:Edz.
  replace (Z.log2 (Zpos mz)) with (dz - 1) in Hlo by lia.
  replace (Z.succ (Z.log2 (Zpos mz))) with dz in Hhi by lia.
  assert (Hn : l + 24 <= dz + ez)
    by (rewrite Edz; apply (le_scaled_digits 24 L); [lia|simpl; lia|exact Hv]).
  unfold binary_round_aux.
  destruct (shr_fexp _ _ (Zpos mz) ez l0) as [r1 e1] eqn:E1.
  apply shr_fexp_m in E1 as [Hm1 He1]; [|lia].
  rewrite Zdigits2_pos_log2, <- Edz in Hm1, He1 by lia.
  rewrite fexp32 in Hm1, He1 by lia.
  replace (Z.max 0 (dz + ez - 24 - ez)) with (dz - 24) in Hm1, He1 by lia.
  pose proof (pow2_pos (dz - 24) ltac:(lia)) as P1.
  assert (Hlo' : 2 ^ (dz - 24) * 8388608 <= Zpos mz).
  { replace (dz - 1) with ((dz - 24) + 23) in Hlo by lia.
    rewrite pow2_add in Hlo by lia. exact Hlo. }
  assert (Hhi' : Zpos mz < 2 ^ (dz - 24) * 16777216).
  { replace dz with ((dz - 24) + 24) in Hhi at 1 by lia.
    rewrite pow2_add in Hhi by lia. exact Hhi. }
  assert (B1 : 8388608 <= shr_m r1 < 16777216).
  { rewrite Hm1. split.
    - apply Z.div_le_lower_bound; lia.
    - apply Z.div_lt_upper_bound; lia. }
  assert (V1 : L <= shr_m r1 * 2 ^ (e1 - l)).
  { destruct (Z.eq_dec e1 l) as [E|E].
    - rewrite E, Z.sub_diag, Z.pow_0_r, Z.mul_1_r, Hm1.
      apply Z.div_le_lower_bound; [lia|].
      apply (le_scaled_elim ez) in Hv; try lia.
      rewrite Z.sub_diag, Z.pow_0_r, Z.mul_1_r in Hv.
      replace (l - ez) with (dz - 24) in Hv by lia. lia.
    - pose proof (pow2_ge_2 (e1 - l) ltac:(lia)). nia. }
  set (m2 := round_nearest_even (shr_m r1) (loc_of_shr_record r1)).
  assert (B2 : shr_m r1 <= m2 <= shr_m r1 + 1).
  { unfold m2. destruct (round_nearest_even_cases (shr_m r1)
      (loc_of_shr_record r1)) as [->| ->]; lia. }
  destruct (shr_fexp _ _ m2 e1 loc_Exact) as [r2 e2] eqn:E2.
  apply shr_fexp_m in E2 as [Hm2 He2]; [|lia].
  rewrite Zdigits2_pos_log2 in Hm2, He2 by lia.
  destruct (Z.eq_dec m2 16777216) as [T|T].
  - (* the rounded mantissa carried into a 25th bit *)
    rewrite T in Hm2, He2. change (Z.log2 16777216) with 24 in Hm2, He2.
    rewrite fexp32 in Hm2, He2 by lia.
    replace (Z.max 0 (24 + 1 + e1 - 24 - e1)) with 1 in Hm2, He2 by lia.
    change (16777216 / 2 ^ 1) with 8388608 in Hm2.
    rewrite Hm2. destruct (e2 <=? F32.emax - F32.prec); [|exact I].
    cbn [SFabs ge_val]. apply (le_scaled_intro l); try lia.
    rewrite Z.sub_diag, Z.pow_0_r.
    pose proof (pow2_ge_2 (e2 - l) ltac:(lia)). nia.
  - assert (L23 : Z.log2 m2 = 23).
    { apply Z.log2_unique; [lia|]. change (8388608 <= m2 < 16777216). lia. }
    rewrite L23 in Hm2, He2. rewrite fexp32 in Hm2, He2 by lia.
    replace (Z.max 0 (23 + 1 + e1 - 24 - e1)) with 0 in Hm2, He2 by lia.
    rewrite Z.pow_0_r, Z.div_1_r in Hm2. rewrite Z.add_0_r in He2. subst e2.
    rewrite Hm2. destruct m2 as [|p2|p2]; try lia.
    destruct (e1 <=? F32.emax - F32.prec); [|exact I].
    cbn [SFabs ge_val]. apply (le_scaled_intro l); try lia.
    rewrite Z.sub_diag, Z.pow_0_r.
    pose proof (pow2_pos (e1 - l) ltac:(lia)). nia.
Qed.

Lemma binary_round_ge s L l mx ex :
  8388608 <= L < 16777216 -> -149 <= l ->
  le_scaled L l (Zpos mx) ex ->
  ge_val (SFabs (binary_round F32.prec F32.emax s mx ex)) L l.
Proof.
  intros HL Hl Hv. unfold binary_round.
  assert (Hn : l + 24 <= Z.log2 (Zpos mx) + 1 + ex)
    by (apply (le_scaled_digits 24 L); [lia|simpl; lia|exact Hv]).
  set (fe := fexp F32.prec F32.emax (Zpos (digits2_pos mx) + ex)).
  assert (Hfe : fe = Z.log2 (Zpos mx) + 1 + ex - 24).
  { unfold fe. rewrite Zdigits2_log2. apply fexp32. lia. }
  destruct (shl_align_spec mx ex fe) as [E Hmz]. rewrite E.
  set (mz := fst (shl_align mx ex fe)) in *.
  set (ez := Z.min ex fe) in *.
  assert (Hdz : Z.log2 (Zpos mz) = ex - ez + Z.log2 (Zpos mx)).
  { rewrite Hmz. apply Z.log2_mul_pow2; lia. }
  apply round_aux_ge; try lia.
  apply (le_scaled_intro (Z.min l ez)); try lia.
  apply (le_scaled_elim (Z.min l ez)) in Hv; try lia.
  rewrite Hmz, <- Z.mul_assoc, <- pow2_add by lia.
  replace (ex - ez + (ez - Z.min l ez)) with (ex - Z.min l ez) by lia.
  exact Hv.
Qed.

(** [c - q] for [c = N1] and a negative [q] with [|q| >= N2]. *)
Lemma sub_negative_ge N1 N2 L l mc ec m e :
  8388608 <= L < 16777216 -> -149 <= l <= 0 -> L = (N1 + N2) * 2 ^ (- l) ->
  ec <= 0 -> Zpos mc = N1 * 2 ^ (- ec) ->
  le_scaled N2 0 (Zpos m) e ->
  ge_val (F32.sub (S754_finite false mc ec) (S754_finite true m e)) L l.
Proof.
  intros HL Hl EL Hec Hc Hq. unfold F32.sub, SFsub.
  set (ez := Z.min ec e).
  destruct (shl_align_spec mc ec ez) as [_ Ha].
  destruct (shl_align_spec m e ez) as [_ Hb].
  set (a := fst (shl_align mc ec ez)) in *.
  set (b := fst (shl_align m e ez)) in *.
  replace (Z.min ec ez) with ez in Ha by lia.
  replace (Z.min e ez) with ez in Hb by lia.
  replace (cond_Zopp false (Zpos a) - cond_Zopp true (Zpos b))
    with (Zpos (a + b)) by (simpl; lia).
  unfold binary_normalize. rewrite <- abs_round.
  apply binary_round_ge; try lia.
  set (c := Z.min l ez).
  apply (le_scaled_intro c); try lia.
  apply (le_scaled_elim c) in Hq; try lia.
  assert (E1 : 2 ^ (- l) * 2 ^ (l - c) = 2 ^ (0 - c))
    by (rewrite <- pow2_add by lia; f_equal; lia).
  assert (E2 : 2 ^ (- ec) * 2 ^ (ec - ez) * 2 ^ (ez - c) = 2 ^ (0 - c))
    by (rewrite <- !pow2_add by lia; f_equal; lia).
  assert (E3 : 2 ^ (e - ez) * 2 ^ (ez - c) = 2 ^ (e - c))
    by (rewrite <- pow2_add by lia; f_equal; lia).
  rewrite Pos2Z.inj_add, Ha, Hb, Hc, EL.
  replace ((N1 + N2) * 2 ^ (- l) * 2 ^ (l - c))
    with ((N1 + N2) * 2 ^ (0 - c)) by (rewrite <- E1; ring).
  replace ((N1 * 2 ^ (- ec) * 2 ^ (ec - ez) + Zpos m * 2 ^ (e - ez))
           * 2 ^ (ez - c))
    with (N1 * 2 ^ (0 - c) + Zpos m * 2 ^ (e - c))
    by (rewrite <- E2, <- E3; ring).
  lia.
Qed.

Lemma ge_val_to_int f N L l z :
  -149 <= l <= 0 -> L = N * 2 ^ (- l) ->
  ge_val f L l -> F32.to_int f = Some z -> N <= z.
Proof.
  intros Hl EL Hg Hz. apply to_int_trunc in Hz.
  destruct f as [s|s| |s m e]; [destruct Hg|discriminate|discriminate|].
  destruct s; [destruct Hg|].
  unfold ge_val in Hg. unfold F32.trunc in Hz. injection Hz as <-.
  pose proof (pow2_pos (- l) ltac:(lia)) as Pl.
  destruct e as [|p|p].
  - apply (le_scaled_elim l) in Hg; try lia.
    rewrite Z.sub_diag, Z.pow_0_r, Z.shiftl_0_r in *.
    replace (0 - l) with (- l) in Hg by lia. nia.
  - apply (le_scaled_elim l) in Hg; try lia.
    rewrite Z.sub_diag, Z.pow_0_r in Hg.
    rewrite Z.shiftl_mul_pow2 by lia.
    replace (Zpos p - l) with (Zpos p + - l) in Hg by lia.
    rewrite pow2_add in Hg by lia.
    pose proof (pow2_pos (Zpos p) ltac:(lia)). nia.
  - rewrite Z.shiftr_div_pow2 by lia.
    pose proof (Pos2Z.neg_is_neg p).
    apply Z.div_le_lower_bound; [apply pow2_pos; lia|].
    destruct (Z.le_gt_cases l (Zneg p)) as [H'|H'].
    + apply (le_scaled_elim l) in Hg; try lia.
      rewrite Z.sub_diag, Z.pow_0_r in Hg.
      replace (- l) with ((Zneg p - l) + Zpos p) in EL by lia.
      rewrite pow2_add in EL by lia.
      pose proof (pow2_pos (Zneg p - l) ltac:(lia)). nia.
    + apply (le_scaled_elim (Zneg p)) in Hg; try lia.
      rewrite Z.sub_diag, Z.pow_0_r in Hg.
      replace (Zpos p) with ((l - Zneg p) + - l) by lia.
      rewrite pow2_add by lia. nia.
Qed.

Lemma mul_one_nonneg m e :
  nonneg_or_nan (F32.mul (S754_finite false m e) F32.one).
Proof.
  change F32.one with (S754_finite false 8388608 (-23)).
  unfold F32.mul, SFmul. apply (binary_round_aux_sign false).
Qed.

Lemma mul_one_ge L l s m e :
  8388608 <= L < 16777216 -> -149 <= l ->
  le_scaled L l (Zpos m) e ->
  ge_val (SFabs (F32.mul (S754_finite s m e) F32.one)) L l.
Proof.
  intros HL Hl Hv.
  change F32.one with (S754_finite false 8388608 (-23)).
  unfold F32.mul, SFmul.
  assert (E : Zpos (m * 8388608) = Zpos m * 2 ^ 23) by reflexivity.
  apply round_aux_ge; try lia.
  - rewrite E, Z.log2_mul_pow2 by lia.
    pose proof (Z.log2_nonneg (Zpos m)). lia.
  - set (c := Z.min l (e + -23)).
    apply (le_scaled_intro c); try lia.
    apply (le_scaled_elim c) in Hv; try lia.
    rewrite E, <- Z.mul_assoc, <- pow2_add by lia.
    replace (23 + (e + -23 - c)) with (e - c) by lia. exact Hv.
Qed.

(** On valid floats, "not less than" is "at least". *)
Lemma not_ltb_ge m e my ey :
  valid_binary F32.prec F32.emax (S754_finite false m e) = true ->
  Zpos my < 16777216 -> -149 <= ey ->
  F32.ltb (S754_finite false m e) (S754_finite false my ey) = false ->
  le_scaled (Zpos my) ey (Zpos m) e.
Proof.
  unfold valid_binary, bounded, canonical_mantissa.
  intros Hv Hmy Hey Hlt. apply andb_true_iff in Hv as [Hc _].
  apply Z.eqb_eq in Hc. rewrite Zdigits2_log2 in Hc.
  unfold F32.ltb, SFltb, SFcompare in Hlt.
  destruct (Z.compare_spec e ey) as [E|E|E]; [| discriminate |].
  - subst ey. apply (le_scaled_intro e); try lia.
    rewrite Z.sub_diag, Z.pow_0_r.
    change (Pos.compare_cont Eq m my) with (Pos.compare m my) in Hlt.
    destruct (Pos.compare_spec m my) as [C|C|C]; try discriminate; lia.
  - assert (D : Z.log2 (Zpos m) = 23).
    { unfold fexp, emin, F32.prec, F32.emax in Hc. lia. }
    destruct (Z.log2_spec (Zpos m)) as [Hlo _]; [lia|].
    rewrite D in Hlo. change (2 ^ 23) with 8388608 in Hlo.
    apply (le_scaled_intro ey); try lia.
    rewrite Z.sub_diag, Z.pow_0_r.
    pose proof (pow2_ge_2 (e - ey) ltac:(lia)). nia.
Qed.

Lemma shifted_numerator (m : positive) s :
  0 <= s ->
  match s with
  | Zpos _ => Z.shiftl (Zpos m) s
  | Z0 => Zpos m
  | Zneg _ => 0
  end = Zpos m * 2 ^ s.
Proof.
  intros Hs. destruct s as [|p|p]; [rewrite Z.pow_0_r; lia| |lia].
  apply Z.shiftl_mul_pow2. lia.
Qed.

Lemma div_negative_cases m e my ey :
  let q := F32.div (S754_finite true m e) (S754_finite false my ey) in
  q = S754_zero true \/ (exists m' e', q = S754_finite true m' e')
  \/ q = S754_infinity true \/ q = S754_nan.
Proof.
  unfold F32.div, SFdiv.
  destruct (SFdiv_core_binary _ _ _ _ _ _) as [[mz ez] lz].
  apply (binary_round_aux_sign true).
Qed.

(** The quotient of a number by a smaller one is at least 1. *)
Lemma div_ge_one sx mx ex my ey :
  le_scaled (Zpos my) ey (Zpos mx) ex ->
  ge_val (SFabs (F32.div (S754_finite sx mx ex) (S754_finite false my ey)))
         8388608 (-23).
Proof.
  intros Hv. unfold F32.div, SFdiv, SFdiv_core_binary.
  rewrite !Zdigits2_pos_log2 by lia.
  destruct (Z.log2_spec (Zpos mx)) as [Hxlo Hxhi]; [lia|].
  destruct (Z.log2_spec (Zpos my)) as [Hylo Hyhi]; [lia|].
  pose proof (Z.log2_nonneg (Zpos mx)) as Nx.
  pose proof (Z.log2_nonneg (Zpos my)) as Ny.
  remember (Z.log2 (Zpos mx)) as lx eqn:Elx.
  remember (Z.log2 (Zpos my)) as ly eqn:Ely.
  assert (Ht : ey + (ly + 1) <= lx + 1 + ex).
  { rewrite Elx. apply (le_scaled_digits (ly + 1) (Zpos my)); [lia| |exact Hv].
    replace (ly + 1 - 1) with ly by lia. exact Hylo. }
  rewrite fexp32 by lia.
  set (e' := Z.min (lx + 1 + ex - (ly + 1 + ey) - 24) (ex - ey)).
  set (s := ex - ey - e').
  assert (Hs : 0 <= s /\ 24 + ly - lx <= s) by (unfold s, e'; lia).
  rewrite (shifted_numerator mx s) by lia.
  pose proof (pow2_pos s ltac:(lia)) as Ps.
  destruct (Z.div_eucl (Zpos mx * 2 ^ s) (Zpos my)) as [q r] eqn:E.
  assert (Eq : q = Zpos mx * 2 ^ s / Zpos my)
    by (unfold Z.div; rewrite E; reflexivity).
  assert (Hnum : 2 ^ (ly + 24) <= Zpos mx * 2 ^ s).
  { assert (2 ^ (ly + 24) <= 2 ^ (lx + s)) by (apply Z.pow_le_mono_r; lia).
    rewrite (pow2_add lx s) in H by lia. nia. }
  assert (Hq : 8388608 <= q).
  { rewrite Eq. apply Z.div_le_lower_bound; [lia|].
    rewrite Z.pow_succ_r in Hyhi by lia.
    rewrite pow2_add in Hnum by lia. change (2 ^ 24) with 16777216 in Hnum.
    lia. }
  destruct q as [|qp|qp]; try lia.
  apply round_aux_ge; try lia.
  - assert (23 <= Z.log2 (Zpos qp))
      by (change 23 with (Z.log2 8388608); apply Z.log2_le_mono; lia).
    lia.
  - destruct (Z.le_gt_cases (-23) e') as [C|C].
    + apply (le_scaled_intro (-23)); [lia|lia|].
      rewrite Z.sub_diag, Z.pow_0_r.
      pose proof (pow2_pos (e' - -23) ltac:(lia)). nia.
    + apply (le_scaled_intro e'); [lia|lia|].
      rewrite Z.sub_diag, Z.pow_0_r, Z.mul_1_r.
      replace (8388608 * 2 ^ (-23 - e')) with (2 ^ (- e')).
      2:{ replace (- e') with (23 + (-23 - e')) by lia.
          rewrite pow2_add by lia. reflexivity. }
      rewrite Eq. apply Z.div_le_lower_bound; [lia|].
      set (c := Z.min ey ex).
      apply (le_scaled_elim c) in Hv; try lia.
      set (k := - e' - (ey - c)).
      assert (Hk : 0 <= k) by (unfold k, c, s in *; lia).
      pose proof (pow2_pos k Hk) as Pk.
      replace (- e') with ((ey - c) + k) by (unfold k; lia).
      replace s with ((ex - c) + k) by (unfold s, k; lia).
      rewrite !pow2_add by lia.
      assert (Zpos my * 2 ^ (ey - c) * 2 ^ k <= Zpos mx * 2 ^ (ex - c) * 2 ^ k)
        by (apply Z.mul_le_mono_nonneg_r; lia).
      lia.
Qed.

Lemma gtb_zero_cases range :
  F32.gtb range F32.zero = true ->
  (exists m e, range = S754_finite false m e) \/ range = S754_infinity false.
Proof.
  destruct range as [s|[]| |[] m e]; try discriminate; eauto.
Qed.

(** The row [250 - (-x)/0.02f] of a sample whose forward coordinate [x] is
    not negative: never above 250, and at least 251 once [x] reaches one
    pixel width. *)
Lemma row_not_above x z :
  nonneg_or_nan x ->
  F32.to_int (F32.sub (S754_finite false 16384000 (-16))
                (F32.div (F32.opp x) (S754_finite false 10737418 (-29))))
  = Some z ->
  250 <= z
  /\ (ge_val (SFabs x) 10737418 (-29) -> 251 <= z).
Proof.
  intros Hx Hz.
  destruct Hx as [->|[(m & e & ->)|[->| ->]]]; try discriminate.
  - split; [|intros []]. vm_compute in Hz. injection Hz as <-. lia.
  - cbn [F32.opp SFopp negb SFabs ge_val] in *.
    pose proof (div_ge_one true m e 10737418 (-29)) as Hq.
    destruct (div_negative_cases m e 10737418 (-29))
      as [E|[(mq & eq & E)|[E|E]]];
      rewrite E in Hz, Hq; try discriminate.
    + split; [|intros G; destruct (Hq G)].
      vm_compute in Hz. injection Hz as <-. lia.
    + cbn [SFabs ge_val] in Hq. split.
      * refine (ge_val_to_int _ 250 16384000 (-16) _ _ _ _ Hz);
          [lia|reflexivity|].
        apply (sub_negative_ge 250 0); try lia; try reflexivity.
        apply le_scaled_zero.
      * intros G.
        refine (ge_val_to_int _ 251 16449536 (-16) _ _ _ _ Hz);
          [lia|reflexivity|].
        apply (sub_negative_ge 250 1); try lia; try reflexivity.
        apply le_scaled_one, Hq, G.
Qed.

(** C3 (as amended). The quarter turn followed by the flip of the pixel
    axis sends sensor-forward to image-down: a sample at angle 0 with a
    positive range lands in the centre column, on the centre row or below
    it ([py >= center_.y]), never above; and strictly below it as soon as
    the range reaches one pixel width ([range >= meter_per_pixel_]). *)
Theorem forward_is_image_down cosf sinf open_ok s range px py tr :
  let node := fst (LidarVisualizer_new open_ok) in
  cosf (S754_zero s) = F32.one ->
  sinf (S754_zero s) = S754_zero s ->
  F32.gtb range F32.zero = true ->
  to_pixel cosf sinf node (S754_zero s) range = Ok (px, py) tr ->
  px = pt_x (center_ node)
  /\ pt_y (center_ node) <= py
  /\ (valid_binary F32.prec F32.emax range = true ->
      F32.ltb range (meter_per_pixel_ node) = false ->
      pt_y (center_ node) < py).
Proof.
  intros node Hc Hs Hr H.
  unfold to_pixel in H. rewrite Hc, Hs in H.
  change (meter_per_pixel_ node) with (S754_finite false 10737418 (-29)) in *.
  change (F32.of_int (pt_x (center_ node)))
    with (S754_finite false 16384000 (-16)) in H.
  change (F32.of_int (pt_y (center_ node)))
    with (S754_finite false 16384000 (-16)) in H.
  change (pt_x (center_ node)) with 250. change (pt_y (center_ node)) with 250.
  apply bind_Ok_inv in H as (px' & t1 & t2 & Hpx & H & _).
  apply bind_Ok_inv in H as (py' & t3 & t4 & Hpy & H & _).
  injection H as -> -> _.
  destruct (gtb_zero_cases range Hr) as [(m & e & ->)| ->].
  - split.
    { destruct s; vm_compute in Hpx; injection Hpx as <- _; reflexivity. }
    unfold static_cast_int in Hpy.
    destruct (F32.to_int _) as [z|] eqn:Ez; [|discriminate].
    injection Hpy as <- _.
    apply row_not_above in Ez as [Hweak Hstrict]; [|apply mul_one_nonneg].
    split; [exact Hweak|].
    intros Hvalid Hge.
    assert (251 <= z); [|lia].
    apply Hstrict, mul_one_ge; [lia|lia|].
    apply not_ltb_ge; [exact Hvalid|lia|lia|exact Hge].
  - exfalso. destruct s; vm_compute in Hpx; discriminate.
Qed.

Lemma forward_is_image_down_witness :
  let node := fst (LidarVisualizer_new true) in
  poly_cosf (S754_zero false) = F32.one
  /\ poly_sinf (S754_zero false) = S754_zero false
  /\ F32.gtb (F32.of_int 3) F32.zero = true
  /\ to_pixel poly_cosf poly_sinf node (S754_zero false) (F32.of_int 3)
     = Ok (250, 400) []
  /\ valid_binary F32.prec F32.emax (F32.of_int 3) = true
  /\ F32.ltb (F32.of_int 3) (meter_per_pixel_ node) = false
  /\ 250 = pt_x (center_ node)
  /\ pt_y (center_ node) <= 400
  /\ pt_y (center_ node) < 400.
Proof.
  intros node.
  assert (H1 : poly_cosf (S754_zero false) = F32.one) by reflexivity.
  assert (H2 : poly_sinf (S754_zero false) = S754_zero false) by reflexivity.
  assert (H3 : F32.gtb (F32.of_int 3) F32.zero = true) by reflexivity.
  assert (H4 : to_pixel poly_cosf poly_sinf node (S754_zero false)
                 (F32.of_int 3) = Ok (250, 400) [])
    by (vm_compute; reflexivity).
  assert (H5 : valid_binary F32.prec F32.emax (F32.of_int 3) = true)
    by reflexivity.
  assert (H6 : F32.ltb (F32.of_int 3) (meter_per_pixel_ node) = false)
    by reflexivity.
  destruct (forward_is_image_down poly_cosf poly_sinf true false
              (F32.of_int 3) 250 400 [] H1 H2 H3 H4) as (Hx & Hy & Hs).
  split; [exact H1|]. split; [exact H2|]. split; [exact H3|].
  split; [exact H4|]. split; [exact H5|]. split; [exact H6|].
  split; [exact Hx|]. split; [exact Hy|exact (Hs H5 H6)].
Defined.

(** C3 (as stated) fails: with [range_min = 0], [range_max = 10] the range
    1 m is accepted, and at angle 0 its pixel is (250, 300), fifty rows
    below the centre (250, 250), not above it. Only [cos 0 = 1] and
    [sin 0 = 0] are used of the C library. *)
Lemma forward_sample_is_below_centre :
  let node := fst (LidarVisualizer_new true) in
  let scan := scan_of F32.zero F32.one F32.zero (F32.of_int 10) [F32.one] in
  sample_angle scan 0 = F32.zero
  /\ rejected scan F32.one = false
  /\ F32.gtb F32.one F32.zero = true
  /\ to_pixel poly_cosf poly_sinf node F32.zero F32.one = Ok (250, 300) []
  /\ render poly_cosf poly_sinf node scan
     = Ok (cv_circle (background node) (mkPoint 250 300) 2 red (-1))
          [LogInfoScan "laser" 1;
           LogInfoAngleRange (S754_zero false) (S754_zero false);
           LogDebugSample (S754_zero false) F32.one]
  /\ ~ 300 < pt_y (center_ node).
Proof.
  intros node scan.
  repeat (split; [vm_compute; reflexivity|]).
  change (pt_y (center_ node)) with 250. lia.
Qed.

(** ** Round trip of the scale *)

Lemma to_pixel_ext cosf sinf cosf' sinf' self angle range :
  cosf angle = cosf' angle -> sinf angle = sinf' angle ->
  to_pixel cosf sinf self angle range = to_pixel cosf' sinf' self angle range.
Proof. unfold to_pixel. intros -> ->. reflexivity. Qed.

Lemma offsets_upto_In n k : 1 <= k <= Z.of_nat n -> In k (offsets_upto n).
Proof.
  intros H. unfold offsets_upto. apply in_map_iff.
  exists (Z.to_nat k). split; [lia|]. apply in_seq. lia.
Qed.

Lemma round_trip_checked : forallb round_trip_holds (offsets_upto 1602) = true.
Proof. vm_compute. reflexivity. Qed.

(** C7 (as amended). With the range [meter_per_pixel_ * k] computed in
    [float], a sample at angle 0 maps to column [center_.x] and to the row
    [k] below [center_.y], for every [k] from 1 to 1602; this covers every
    offset that stays inside the image. *)
Theorem round_trip_up_to_1602 cosf sinf open_ok k :
  let node := fst (LidarVisualizer_new open_ok) in
  cosf F32.zero = F32.one ->
  sinf F32.zero = F32.zero ->
  1 <= k <= 1602 ->
  to_pixel cosf sinf node F32.zero (range_of_offset node k)
  = Ok (pt_x (center_ node), pt_y (center_ node) + k) [].
Proof.
  intros node Hc Hs Hk.
  rewrite (to_pixel_ext cosf sinf poly_cosf poly_sinf)
    by (rewrite ?Hc, ?Hs; reflexivity).
  pose proof round_trip_checked as C.
  rewrite forallb_forall in C.
  specialize (C k (offsets_upto_In 1602 k ltac:(lia))).
  unfold round_trip_holds in C.
  change (to_pixel poly_cosf poly_sinf node F32.zero (range_of_offset node k))
    with (to_pixel poly_cosf poly_sinf (fst (LidarVisualizer_new true))
            F32.zero (range_of_offset (fst (LidarVisualizer_new true)) k)).
  destruct (to_pixel_cases poly_cosf poly_sinf (fst (LidarVisualizer_new true))
              F32.zero (range_of_offset (fst (LidarVisualizer_new true)) k))
    as [(px & py & E)|(f & E)]; rewrite E in C |- *; [|discriminate].
  apply andb_true_iff in C as [Cx Cy].
  apply Z.eqb_eq in Cx, Cy. subst px py. reflexivity.
Qed.

Lemma round_trip_up_to_1602_witness :
  let node := fst (LidarVisualizer_new true) in
  poly_cosf F32.zero = F32.one
  /\ poly_sinf F32.zero = F32.zero
  /\ 1 <= 100 <= 1602
  /\ to_pixel poly_cosf poly_sinf node F32.zero (range_of_offset node 100)
     = Ok (250, 350) [].
Proof.
  intros node.
  split; [reflexivity|]. split; [reflexivity|]. split; [lia|].
  exact (round_trip_up_to_1602 poly_cosf poly_sinf true 100
           eq_refl eq_refl ltac:(lia)).
Defined.

(** C7 (as stated) fails at [k = 1603]: [0.02f * 1603] divided by [0.02f]
    rounds to the float just below 1603, so the row is 250 + 1602. *)
Lemma round_trip_fails_at_1603 :
  let node := fst (LidarVisualizer_new true) in
  range_of_offset node 1603 = S754_finite false 8404336 (-18)
  /\ F32.div (range_of_offset node 1603) (meter_per_pixel_ node)
     = S754_finite false 13131775 (-13)
  /\ F32.of_int 1603 = S754_finite false 13131776 (-13)
  /\ to_pixel poly_cosf poly_sinf node F32.zero (range_of_offset node 1603)
     = Ok (250, 1852) []
  /\ Z.abs (1852 - pt_y (center_ node)) <> 1603.
Proof.
  intros node.
  repeat (split; [vm_compute; reflexivity|]).
  change (pt_y (center_ node)) with 250. lia.
Qed.

(** * Further properties of the callback *)

(** ** Traces and frames *)

Lemma skipn_nth_error {A} (l : list A) : forall k x,
  nth_error l k = Some x -> skipn k l = x :: skipn (S k) l.
Proof.
  induction l as [|a l IH]; intros [|k] x H; try discriminate.
  - injection H as ->. reflexivity.
  - apply IH in H. exact H.
Qed.

Lemma loop_trace cosf sinf self scan n : forall k img img' tr,
  loop cosf sinf self scan n (Z.of_nat k) img = Ok img' tr ->
  tr = debug_lines scan k n
  /\ (0 < n -> k + n <= List.length (ranges scan))%nat.
Proof.
  induction n as [|n IH]; intros k img img' tr H.
  - inversion H; subst. split; [reflexivity|lia].
  - rewrite loop_S in H.
    apply bind_Ok_inv in H as (img1 & t1 & t2 & Hb & Hl & ->).
    apply loop_body_Ok in Hb as (r & Hv & _ & ->).
    apply vector_at_Ok in Hv as (Hk & Hn & _).
    rewrite Nat2Z.id in Hn.
    replace (Z.of_nat k + 1) with (Z.of_nat (S k)) in Hl by lia.
    apply IH in Hl as [-> Hlen]. split; [|lia].
    unfold debug_lines. rewrite (skipn_nth_error _ _ _ Hn). reflexivity.
Qed.

Lemma debug_lines_length scan k n :
  (0 < n -> k + n <= List.length (ranges scan))%nat ->
  List.length (debug_lines scan k n) = n.
Proof.
  intros H. unfold debug_lines.
  rewrite length_map, length_combine, length_seq, length_firstn, length_skipn.
  lia.
Qed.

(** X3. The trace of a completed callback: the two INFO lines, whose count
    is the number of samples visited, one debug line per visited sample in
    index order with the range read at that index, then one [imshow] of
    the frame and one [waitKey(1)]; the samples visited are the first
    [count] of [ranges]. *)
Theorem callback_trace cosf sinf self scan self' tr :
  scanCallback cosf sinf self scan = Ok self' tr ->
  exists c img,
    sample_count scan = Ok c []
    /\ render cosf sinf self scan
       = Ok img (LogInfoScan (frame_id scan) c
                 :: LogInfoAngleRange (RAD2DEG (angle_min scan))
                                      (RAD2DEG (angle_max scan))
                 :: debug_lines scan 0 (Z.to_nat c))
    /\ tr = LogInfoScan (frame_id scan) c
            :: LogInfoAngleRange (RAD2DEG (angle_min scan))
                                 (RAD2DEG (angle_max scan))
            :: debug_lines scan 0 (Z.to_nat c)
            ++ [ImShow "Lidar Scan" img; WaitKey 1]
    /\ List.length (debug_lines scan 0 (Z.to_nat c)) = Z.to_nat c
    /\ c <= Z.of_nat (List.length (ranges scan)).
Proof.
  intros H.
  apply scanCallback_Ok in H as (img & t & Hr & -> & _).
  destruct (render_visits _ _ _ _ _ _ Hr) as (c & Hc & Hv).
  exists c, img. split; [exact Hc|].
  pose proof Hr as Hr'.
  unfold render in Hr'. rewrite Hc, bind_ret_l in Hr'.
  apply bind_Ok_inv in Hr' as ([] & t1 & t2 & He1 & Hr' & ->).
  apply bind_Ok_inv in Hr' as ([] & t3 & t4 & He2 & Hl & ->).
  inversion He1; inversion He2; subst.
  apply (loop_trace cosf sinf self scan (Z.to_nat c) 0) in Hl as [-> Hlen].
  split; [exact Hr|]. split; [reflexivity|].
  split; [apply debug_lines_length; exact Hlen|].
  destruct (Z.le_gt_cases c 0); lia.
Qed.

Lemma callback_trace_witness :
  let node := fst (LidarVisualizer_new true) in
  let scan := scan_of F32.zero F32.one F32.zero (F32.of_int 10)
                      [F32.one; F32.of_int 11] in
  exists self' tr c img,
    scanCallback poly_cosf poly_sinf node scan = Ok self' tr
    /\ sample_count scan = Ok c []
    /\ tr = LogInfoScan (frame_id scan) c
            :: LogInfoAngleRange (RAD2DEG (angle_min scan))
                                 (RAD2DEG (angle_max scan))
            :: debug_lines scan 0 (Z.to_nat c)
            ++ [ImShow "Lidar Scan" img; WaitKey 1]
    /\ c = 2.
Proof.
  intros node scan.
  destruct (scanCallback poly_cosf poly_sinf node scan) as [self' tr|u] eqn:E.
  - destruct (callback_trace poly_cosf poly_sinf node scan self' tr E)
      as (c & img & Hc & _ & Ht & _ & _).
    exists self', tr, c, img. split; [reflexivity|]. split; [exact Hc|].
    split; [exact Ht|].
    assert (H : sample_count scan = Ok 2 []) by reflexivity.
    rewrite H in Hc. injection Hc as Hc. symmetry. exact Hc.
  - exfalso. revert E. vm_compute. discriminate.
Defined.

Lemma sink_total self img :
  exists self', sink self img = Ok self' [ImShow "Lidar Scan" img; WaitKey 1].
Proof. unfold sink, emit, bind, ret. eexists. reflexivity. Qed.

(** X1. The callback completes, free of undefined behaviour, exactly when
    the quotient [scan_time / time_increment] converts to an [int] and
    every index below the resulting count lies inside [ranges] and holds a
    range that is rejected or whose pixel coordinates convert to [int]. *)
Theorem callback_completes_iff cosf sinf self scan :
  (exists self' tr, scanCallback cosf sinf self scan = Ok self' tr)
  <-> exists c,
        sample_count scan = Ok c []
        /\ forall j, 0 <= j < c -> sample_ok cosf sinf self scan j.
Proof.
  rewrite <- render_completes. unfold scanCallback. split.
  - intros (self' & tr & H).
    apply bind_Ok_inv in H as (img & t1 & t2 & Hr & _ & _). eauto.
  - intros (img & tr & Hr). destruct (sink_total self img) as (self' & Hs).
    exists self'. eexists. apply (bind_Ok _ _ _ _ _ _ Hr Hs).
Qed.

Lemma callback_completes_iff_witness :
  let node := fst (LidarVisualizer_new true) in
  let scan := scan_of (F32.of_int 2) F32.one F32.zero (F32.of_int 10)
                      [F32.one; F32.of_int 11; F32.one] in
  sample_count scan = Ok 2 []
  /\ (forall j, 0 <= j < 2 -> sample_ok poly_cosf poly_sinf node scan j)
  /\ exists self' tr, scanCallback poly_cosf poly_sinf node scan = Ok self' tr.
Proof.
  intros node scan.
  assert (Hc : sample_count scan = Ok 2 []) by reflexivity.
  assert (Hs : forall j, 0 <= j < 2 ->
                         sample_ok poly_cosf poly_sinf node scan j).
  { intros j Hj. assert (j = 0 \/ j = 1) as [-> | ->] by lia.
    - exists F32.one. split; [reflexivity|]. right.
      exists (250, 300). vm_compute. reflexivity.
    - exists (F32.of_int 11). split; [reflexivity|]. left. reflexivity. }
  split; [exact Hc|]. split; [exact Hs|].
  apply (proj2 (callback_completes_iff poly_cosf poly_sinf node scan)).
  exists 2. split; [exact Hc|exact Hs].
Defined.

Lemma plot_sample_Ok_inv cosf sinf self scan angle range img img' :
  plot_sample cosf sinf self scan angle range img = Ok img' [] ->
  img' = img
  \/ exists px py,
       rejected scan range = false
       /\ to_pixel cosf sinf self angle range = Ok (px, py) []
       /\ in_image self px py = true
       /\ img' = cv_circle img (mkPoint px py) 2 red (-1).
Proof.
  unfold plot_sample. destruct (rejected scan range) eqn:R.
  - intros H. inversion H. auto.
  - destruct (to_pixel_cases cosf sinf self angle range)
      as [(px & py & E)|(f & E)]; rewrite E; [|discriminate].
    rewrite bind_ret_l. intros H. injection H as <-.
    unfold plot. cbn [fst snd].
    destruct (in_image self px py) eqn:I; [right|auto].
    exists px, py. auto.
Qed.

Lemma loop_discs_of_samples cosf sinf self scan n : forall k img img' tr,
  loop cosf sinf self scan n (Z.of_nat k) img = Ok img' tr ->
  exists js discs,
    drawn img' = drawn img ++ discs
    /\ Forall2 (disc_of_sample cosf sinf self scan) js discs
    /\ StronglySorted lt js
    /\ Forall (fun j => k <= j < k + n)%nat js.
Proof.
  induction n as [|n IH]; intros k img img' tr H.
  - inversion H; subst. exists [], []. rewrite app_nil_r.
    repeat split; constructor.
  - rewrite loop_S in H.
    apply bind_Ok_inv in H as (img1 & t1 & t2 & Hb & Hl & _).
    apply loop_body_Ok in Hb as (range & Hv & Hp & _).
    apply vector_at_Ok in Hv as (_ & Hn & _). rewrite Nat2Z.id in Hn.
    replace (Z.of_nat k + 1) with (Z.of_nat (S k)) in Hl by lia.
    apply IH in Hl as (js & discs & Hd & HF & HS & HB).
    assert (HB' : Forall (fun j => k <= j < k + S n)%nat js)
      by (eapply Forall_impl; [|exact HB]; cbv beta; intros; lia).
    apply plot_sample_Ok_inv in Hp
      as [->|(px & py & Hr & Hpx & Hin & ->)].
    + exists js, discs. auto.
    + exists (k :: js), (Circle (mkPoint px py) 2 red (-1) :: discs).
      split; [|split; [|split]].
      * rewrite Hd. cbn [cv_circle drawn]. rewrite <- app_assoc. reflexivity.
      * constructor; [|exact HF]. exists range, px, py. auto.
      * constructor; [exact HS|].
        eapply Forall_impl; [|exact HB]. cbv beta. intros; lia.
      * constructor; [lia|exact HB'].
Qed.

Lemma sorted_in_range_length js : forall k n,
  StronglySorted lt js -> Forall (fun j => k <= j < k + n)%nat js ->
  (List.length js <= n)%nat.
Proof.
  induction js as [|j js IH]; intros k n HS HB; [simpl; lia|].
  inversion HS as [|? ? HS' Hlt]; subst.
  inversion HB as [|? ? Hj HB']; subst.
  destruct n as [|n]; [lia|].
  specialize (IH (S j) (k + n - j)%nat HS').
  assert (Forall (fun i => S j <= i < S j + (k + n - j))%nat js).
  { rewrite Forall_forall in *. intros i Hi.
    specialize (Hlt i Hi). specialize (HB' i Hi). lia. }
  specialize (IH H). simpl. lia.
Qed.

(** X2. In a completed frame the drawing is the background followed by
    discs that are, in order, those of samples with strictly increasing
    indices, all below the count and inside [ranges]: each disc is the red
    filled disc of radius 2 of a sample that passed the validation, centred
    on the pixel of that sample, which is a pixel of the image. So no
    sample is drawn twice, and there are at most as many discs as samples
    visited, hence at most [len(ranges)]. *)
Theorem discs_are_of_distinct_samples cosf sinf self scan img tr :
  render cosf sinf self scan = Ok img tr ->
  exists c js discs,
    sample_count scan = Ok c []
    /\ drawn img = drawn (background self) ++ discs
    /\ Forall2 (disc_of_sample cosf sinf self scan) js discs
    /\ StronglySorted lt js
    /\ Forall (fun j => j < Z.to_nat c
                        /\ j < List.length (ranges scan))%nat js
    /\ Forall (disc_inside self) discs
    /\ (List.length discs <= Z.to_nat c)%nat
    /\ (List.length discs <= List.length (ranges scan))%nat.
Proof.
  intros Hr.
  destruct (render_visits _ _ _ _ _ _ Hr) as (c & Hc & _).
  pose proof Hr as Hr'.
  unfold render in Hr'. rewrite Hc, bind_ret_l in Hr'.
  apply bind_Ok_inv in Hr' as ([] & t1 & t2 & _ & Hr' & _).
  apply bind_Ok_inv in Hr' as ([] & t3 & t4 & _ & Hl & _).
  apply (loop_discs_of_samples cosf sinf self scan (Z.to_nat c) 0) in Hl
    as (js & discs & Hd & HF & HS & HB).
  pose proof (sorted_in_range_length js 0 (Z.to_nat c) HS HB) as Hlen.
  pose proof (Forall2_length HF) as El.
  assert (Hin : Forall (fun j => j < List.length (ranges scan))%nat js).
  { clear - HF. induction HF as [|j d js discs (r & _ & _ & Hn & _) _ IH];
      constructor; [|exact IH].
    apply nth_error_Some. rewrite Hn. discriminate. }
  assert (Hlen' : (List.length js <= List.length (ranges scan))%nat).
  { pose proof (sorted_in_range_length js 0 (List.length (ranges scan)) HS)
      as L. apply L. eapply Forall_impl; [|exact Hin]. cbv beta. lia. }
  exists c, js, discs.
  split; [exact Hc|]. split; [exact Hd|]. split; [exact HF|].
  split; [exact HS|]. split; [|split; [|split]].
  - rewrite Forall_forall in *. intros j Hj.
    specialize (HB j Hj). specialize (Hin j Hj). lia.
  - clear - HF.
    induction HF as [|j d js discs (r & px & py & _ & _ & _ & Hi & ->) _ IH];
      constructor; [|exact IH].
    exists (mkPoint px py). split; [reflexivity|exact Hi].
  - lia.
  - lia.
Qed.

Lemma discs_are_of_distinct_samples_witness :
  let node := fst (LidarVisualizer_new true) in
  let scan := scan_of F32.zero F32.one F32.zero (F32.of_int 100)
                      [F32.one; F32.of_int 50; F32.of_int 2; S754_nan] in
  exists img tr js discs,
    render poly_cosf poly_sinf node scan = Ok img tr
    /\ drawn img = drawn (background node) ++ discs
    /\ discs = [Circle (mkPoint 250 300) 2 red (-1);
                Circle (mkPoint 250 350) 2 red (-1)]
    /\ Forall2 (disc_of_sample poly_cosf poly_sinf node scan) js discs
    /\ StronglySorted lt js
    /\ Forall (fun j => j < 4)%nat js.
Proof.
  intros node scan.
  destruct (render poly_cosf poly_sinf node scan) as [img tr|u] eqn:E.
  - destruct (discs_are_of_distinct_samples poly_cosf poly_sinf node scan
                img tr E)
      as (c & js & discs & _ & Hd & HF & HS & HB & _).
    exists img, tr, js, discs. split; [reflexivity|]. split; [exact Hd|].
    split; [|split; [exact HF|split; [exact HS|]]].
    + pose proof E as E2. vm_compute in E2. injection E2 as Ei _.
      rewrite <- Ei in Hd. vm_compute in Hd. injection Hd as Hd.
      symmetry. exact Hd.
    + eapply Forall_impl; [|exact HB]. cbv beta.
      intros j [_ Hj]. exact Hj.
  - exfalso. revert E. vm_compute. discriminate.
Defined.

(** ** Runs *)

Lemma spin_frames cosf sinf msgs : forall self node tr,
  spin cosf sinf self msgs = Ok node tr ->
  Forall2 (fun scan img => exists t, render cosf sinf self scan = Ok img t)
          msgs (shown tr).
Proof.
  induction msgs as [|scan rest IH]; intros self node tr H.
  - injection H as _ <-. constructor.
  - simpl in H. apply bind_Ok_inv in H as (self1 & t1 & t2 & Hc & Hs & ->).
    apply scanCallback_Ok in Hc as (img & t & Hr & -> & Hv1 & _).
    pose proof (render_Ok _ _ _ _ _ _ Hr) as (_ & _ & _ & _ & S1 & _).
    rewrite !shown_app, S1. simpl. constructor; [eauto|].
    apply IH in Hs.
    eapply Forall2_impl; [|exact Hs].
    intros scan' img' (t' & Ht'). exists t'.
    rewrite <- Ht'. apply render_view. symmetry. exact Hv1.
Qed.

(** X5. The node is stateless across messages: over any completed run,
    from any state of the node, the images shown are, in arrival order and
    one per message, the image that each message renders on its own; and
    recording only appends, the frames written before the run staying a
    prefix of the frames written after it. *)
Theorem run_is_stateless cosf sinf self msgs node tr :
  spin cosf sinf self msgs = Ok node tr ->
  Forall2 (fun scan img => exists t, render cosf sinf self scan = Ok img t)
          msgs (shown tr)
  /\ view node = view self
  /\ exists appended,
       frames (video_writer_ node) = frames (video_writer_ self) ++ appended.
Proof.
  intros H. split; [exact (spin_frames _ _ _ _ _ _ H)|].
  apply spin_Ok in H as (Hv & _ & _ & _ & _ & Hf & _).
  split; [exact Hv|]. eexists. exact Hf.
Qed.

Lemma run_is_stateless_witness :
  let node := fst (LidarVisualizer_new true) in
  let s1 := scan_of F32.zero F32.one F32.zero (F32.of_int 10) [F32.one] in
  let s2 := scan_of F32.zero F32.one F32.zero (F32.of_int 10)
                    [F32.of_int 2; S754_nan] in
  exists node' tr,
    spin poly_cosf poly_sinf node [s1; s2; s1] = Ok node' tr
    /\ Forall2 (fun scan img =>
                  exists t, render poly_cosf poly_sinf node scan = Ok img t)
               [s1; s2; s1] (shown tr)
    /\ view node' = view node.
Proof.
  intros node s1 s2.
  destruct (spin poly_cosf poly_sinf node [s1; s2; s1]) as [node' tr|u] eqn:E.
  - destruct (run_is_stateless poly_cosf poly_sinf node [s1; s2; s1] node' tr E)
      as (H1 & H2 & _).
    exists node', tr. split; [reflexivity|]. split; [exact H1|exact H2].
  - exfalso. revert E. vm_compute. discriminate.
Defined.

(** ** Frames without a valid return *)

Lemma loop_all_rejected cosf sinf self scan n : forall k img,
  (k + n <= List.length (ranges scan))%nat ->
  Forall (fun r => rejected scan r = true) (ranges scan) ->
  loop cosf sinf self scan n (Z.of_nat k) img = Ok img (debug_lines scan k n).
Proof.
  induction n as [|n IH]; intros k img Hk Hall; [reflexivity|].
  destruct (nth_error (ranges scan) k) as [r|] eqn:En.
  2:{ apply nth_error_None in En. lia. }
  assert (Hr : rejected scan r = true).
  { rewrite Forall_forall in Hall. apply Hall.
    eapply nth_error_In. exact En. }
  assert (Hv : vector_at (ranges scan) (Z.of_nat k) = Ok r []).
  { unfold vector_at. destruct (Z.ltb_spec (Z.of_nat k) 0); [lia|].
    rewrite Nat2Z.id, En. reflexivity. }
  rewrite loop_S, (loop_body_reads _ _ _ _ _ _ _ Hv).
  unfold plot_sample. rewrite Hr.
  replace (Z.of_nat k + 1) with (Z.of_nat (S k)) by lia.
  unfold emit, ret, bind. rewrite IH by (auto; lia).
  unfold debug_lines. rewrite (skipn_nth_error _ _ _ En). reflexivity.
Qed.

(** X6. A message without a single valid return - every range rejected,
    or no range at all - never fails once its count is defined and within
    the vector: the frame is the bare background with the cross, for any
    angles and any [cos]/[sin], and it is shown like any other. *)
Theorem no_valid_return_gives_bare_frame cosf sinf self scan c :
  sample_count scan = Ok c [] ->
  c <= Z.of_nat (List.length (ranges scan)) ->
  Forall (fun r => rejected scan r = true) (ranges scan) ->
  exists tr self',
    render cosf sinf self scan = Ok (background self) tr
    /\ scanCallback cosf sinf self scan
       = Ok self' (tr ++ [ImShow "Lidar Scan" (background self); WaitKey 1]).
Proof.
  intros Hc Hlen Hall.
  assert (Hr : render cosf sinf self scan
               = Ok (background self)
                    ([LogInfoScan (frame_id scan) c]
                     ++ [LogInfoAngleRange (RAD2DEG (angle_min scan))
                                           (RAD2DEG (angle_max scan))]
                     ++ debug_lines scan 0 (Z.to_nat c))).
  { unfold render. rewrite Hc, bind_ret_l.
    unfold emit, bind.
    rewrite (loop_all_rejected cosf sinf self scan (Z.to_nat c) 0)
      by (auto; lia).
    reflexivity. }
  destruct (sink_total self (background self)) as (self' & Hs).
  eexists. exists self'. split; [exact Hr|].
  unfold scanCallback. apply (bind_Ok _ _ _ _ _ _ Hr Hs).
Qed.

Lemma no_valid_return_gives_bare_frame_witness :
  let node := fst (LidarVisualizer_new true) in
  let nan_fn := fun _ : float32 => S754_nan in
  let scan := mkLaserScan "laser" F32.one (F32.of_int 3) F32.one
                F32.one F32.zero F32.one (F32.of_int 10)
                [S754_nan; F32.of_int 11; F32.zero] [] in
  sample_count scan = Ok 3 []
  /\ 3 <= Z.of_nat (List.length (ranges scan))
  /\ Forall (fun r => rejected scan r = true) (ranges scan)
  /\ exists tr self',
       render nan_fn nan_fn node scan = Ok (background node) tr
       /\ scanCallback nan_fn nan_fn node scan
          = Ok self' (tr ++ [ImShow "Lidar Scan" (background node); WaitKey 1]).
Proof.
  intros node nan_fn scan.
  assert (H1 : sample_count scan = Ok 3 []) by reflexivity.
  assert (H2 : 3 <= Z.of_nat (List.length (ranges scan))) by (simpl; lia).
  assert (H3 : Forall (fun r => rejected scan r = true) (ranges scan))
    by (repeat constructor).
  split; [exact H1|]. split; [exact H2|]. split; [exact H3|].
  exact (no_valid_return_gives_bare_frame nan_fn nan_fn node scan 3
           H1 H2 H3).
Defined.

(** ** Validation at its edges (line 72) *)

Lemma SFcompare_refl x : x <> S754_nan -> SFcompare x x = Some Eq.
Proof.
  destruct x as [s|s| |s m e]; try congruence; intros _; simpl.
  - reflexivity.
  - destruct s; reflexivity.
  - rewrite Z.compare_refl, Pos.compare_cont_refl. destruct s; reflexivity.
Qed.

Lemma SFcompare_antisym x y :
  SFcompare y x = option_map CompOpp (SFcompare x y).
Proof.
  destruct x as [sx|sx| |sx mx ex], y as [sy|sy| |sy my ey]; simpl;
    try reflexivity;
    try (destruct sx; reflexivity); try (destruct sy; reflexivity);
    try (destruct sx, sy; reflexivity).
  assert (P : Pos.compare_cont Eq my mx = CompOpp (Pos.compare_cont Eq mx my))
    by (rewrite (Pos.compare_cont_antisym mx my Eq); reflexivity).
  rewrite (Z.compare_antisym ex ey), P.
  destruct sx, sy, (ex ?= ey); simpl; try reflexivity.
Qed.

Lemma ltb_irrefl x : F32.ltb x x = false.
Proof.
  unfold F32.ltb, SFltb. destruct x as [s|s| |s m e];
    try (rewrite SFcompare_refl by discriminate); reflexivity.
Qed.

Lemma leb_not_gtb a b : SFleb a b = true -> F32.ltb b a = false.
Proof.
  unfold SFleb, F32.ltb, SFltb. rewrite (SFcompare_antisym a b).
  destruct (SFcompare a b) as [[]|]; simpl; congruence.
Qed.

(** X7. The two comparisons of the validation are strict: when
    [range_min <= range_max], a range equal to [range_min] or to
    [range_max] is accepted. *)
Theorem bounds_themselves_are_accepted scan :
  SFleb (range_min scan) (range_max scan) = true ->
  rejected scan (range_min scan) = false
  /\ rejected scan (range_max scan) = false.
Proof.
  intros H. unfold rejected, F32.gtb.
  rewrite !ltb_irrefl.
  pose proof (leb_not_gtb _ _ H) as G. unfold F32.ltb in *. rewrite G.
  assert (N : F32.isnan (range_min scan) = false
              /\ F32.isnan (range_max scan) = false).
  { unfold SFleb in H.
    destruct (range_min scan), (range_max scan); try discriminate; auto. }
  destruct N as [-> ->]. auto.
Qed.

Lemma bounds_themselves_are_accepted_witness :
  let scan := scan_of F32.zero F32.one F32.one (F32.of_int 10) [] in
  SFleb (range_min scan) (range_max scan) = true
  /\ rejected scan F32.one = false
  /\ rejected scan (F32.of_int 10) = false.
Proof.
  intros scan.
  assert (H : SFleb (range_min scan) (range_max scan) = true) by reflexivity.
  split; [exact H|]. exact (bounds_themselves_are_accepted scan H).
Defined.

(** X8. A NaN bound checks nothing: with [range_min] and [range_max] both
    NaN, the only ranges rejected are the NaN ones, so negative and
    infinite ranges pass the validation too. *)
Theorem nan_bounds_reject_only_nan scan range :
  range_min scan = S754_nan -> range_max scan = S754_nan ->
  rejected scan range = F32.isnan range.
Proof.
  intros Hmin Hmax. unfold rejected, F32.gtb, F32.ltb, SFltb.
  rewrite Hmin, Hmax. destruct range; reflexivity.
Qed.

Lemma nan_bounds_reject_only_nan_witness :
  let scan := scan_of F32.zero F32.one S754_nan S754_nan [] in
  range_min scan = S754_nan /\ range_max scan = S754_nan
  /\ rejected scan (F32.opp F32.one) = false
  /\ rejected scan (S754_infinity false) = false
  /\ rejected scan S754_nan = true.
Proof.
  intros scan. split; [reflexivity|]. split; [reflexivity|].
  split; [|split].
  - exact (nan_bounds_reject_only_nan scan (F32.opp F32.one) eq_refl eq_refl).
  - exact (nan_bounds_reject_only_nan scan (S754_infinity false)
             eq_refl eq_refl).
  - exact (nan_bounds_reject_only_nan scan S754_nan eq_refl eq_refl).
Defined.

(** ** Conversions that are not defined (lines 76-86) *)

Lemma trunc_None_to_int f : F32.trunc f = None -> F32.to_int f = None.
Proof. intros H. unfold F32.to_int. rewrite H. reflexivity. Qed.

Lemma to_pixel_px_undefined cosf sinf self angle range :
  F32.trunc (F32.add (F32.of_int (pt_x (center_ self)))
               (F32.div (F32.mul range (sinf angle)) (meter_per_pixel_ self)))
  = None ->
  exists f, F32.to_int f = None
            /\ to_pixel cosf sinf self angle range = Undefined (FloatToInt f).
Proof.
  intros H. apply trunc_None_to_int in H. eexists. split; [exact H|].
  unfold to_pixel, static_cast_int at 1. rewrite H. reflexivity.
Qed.

Lemma to_pixel_py_undefined cosf sinf self angle range :
  F32.trunc (F32.sub (F32.of_int (pt_y (center_ self)))
               (F32.div (F32.opp (F32.mul range (cosf angle)))
                        (meter_per_pixel_ self)))
  = None ->
  exists f, F32.to_int f = None
            /\ to_pixel cosf sinf self angle range = Undefined (FloatToInt f).
Proof.
  intros H. apply trunc_None_to_int in H. unfold to_pixel.
  match goal with |- context [bind (static_cast_int ?g) _] =>
    destruct (static_cast_int_cases g) as [(px & Hpx & ->)|(Hn & ->)] end.
  - rewrite bind_ret_l. unfold static_cast_int. rewrite H.
    eexists. split; [exact H|reflexivity].
  - eexists. split; [exact Hn|reflexivity].
Qed.

(** X9. A NaN from [cos] or [sin] never yields a pixel: for every range,
    the conversion to pixel coordinates is undefined. *)
Theorem nan_direction_is_undefined cosf sinf self angle range :
  cosf angle = S754_nan \/ sinf angle = S754_nan ->
  exists f, F32.to_int f = None
            /\ to_pixel cosf sinf self angle range = Undefined (FloatToInt f).
Proof.
  intros [H|H].
  - apply to_pixel_py_undefined. rewrite H.
    destruct range, (F32.of_int (pt_y (center_ self))); reflexivity.
  - apply to_pixel_px_undefined. rewrite H.
    destruct range, (F32.of_int (pt_x (center_ self))); reflexivity.
Qed.

Lemma nan_direction_is_undefined_witness :
  let node := fst (LidarVisualizer_new true) in
  let nan_cos := fun _ : float32 => S754_nan in
  (nan_cos F32.one = S754_nan \/ poly_sinf F32.one = S754_nan)
  /\ exists f, F32.to_int f = None
               /\ to_pixel nan_cos poly_sinf node F32.one F32.one
                  = Undefined (FloatToInt f).
Proof.
  intros node nan_cos.
  assert (H : nan_cos F32.one = S754_nan \/ poly_sinf F32.one = S754_nan)
    by (left; reflexivity).
  split; [exact H|].
  exact (nan_direction_is_undefined nan_cos poly_sinf node F32.one F32.one H).
Defined.

Lemma mul_inf_not_finite s v :
  is_finite (F32.mul (S754_infinity s) v) = false.
Proof. destruct v; reflexivity. Qed.

Lemma div_not_finite x my ey :
  is_finite x = false ->
  is_finite (F32.div x (S754_finite false my ey)) = false.
Proof. destruct x; try discriminate; reflexivity. Qed.

Lemma add_not_finite mc ec q :
  is_finite q = false ->
  F32.trunc (F32.add (S754_finite false mc ec) q) = None.
Proof. destruct q; try discriminate; reflexivity. Qed.

(** X10. An infinite range is never plotted. It is rejected as soon as the
    matching bound is finite ([+inf] against [range_max], [-inf] against
    [range_min]) and then leaves the image as it is; and if it passes the
    validation the conversion of its pixel is undefined, for every
    angle. *)
Theorem infinite_range_is_never_plotted cosf sinf open_ok scan angle s img :
  let node := fst (LidarVisualizer_new open_ok) in
  (is_finite (range_max scan) = true ->
   rejected scan (S754_infinity false) = true)
  /\ (is_finite (range_min scan) = true ->
      rejected scan (S754_infinity true) = true)
  /\ (rejected scan (S754_infinity s) = true ->
      plot_sample cosf sinf node scan angle (S754_infinity s) img = Ok img [])
  /\ (rejected scan (S754_infinity s) = false ->
      exists f,
        F32.to_int f = None
        /\ plot_sample cosf sinf node scan angle (S754_infinity s) img
           = Undefined (FloatToInt f)).
Proof.
  intros node. split; [|split; [|split]].
  - unfold rejected, F32.gtb, F32.ltb, SFltb.
    destruct (range_max scan) as [?|?| |[] ? ?]; try discriminate;
      intros _; rewrite orb_true_r; reflexivity.
  - unfold rejected, F32.gtb, F32.ltb, SFltb.
    destruct (range_min scan) as [?|?| |[] ? ?]; try discriminate;
      intros _; reflexivity.
  - intros H. unfold plot_sample. rewrite H. reflexivity.
  - intros H. unfold plot_sample. rewrite H.
    destruct (to_pixel_px_undefined cosf sinf node angle (S754_infinity s))
      as (f & Hf & E).
    { change (meter_per_pixel_ node) with (S754_finite false 10737418 (-29)).
      change (F32.of_int (pt_x (center_ node)))
        with (S754_finite false 16384000 (-16)).
      apply add_not_finite, div_not_finite, mul_inf_not_finite. }
    exists f. split; [exact Hf|]. rewrite E. reflexivity.
Qed.

Lemma infinite_range_is_never_plotted_witness :
  let node := fst (LidarVisualizer_new true) in
  let bounded := scan_of F32.zero F32.one F32.zero (F32.of_int 10) [] in
  let unbounded := scan_of F32.zero F32.one F32.zero (S754_infinity false) [] in
  is_finite (range_max bounded) = true
  /\ rejected bounded (S754_infinity false) = true
  /\ plot_sample poly_cosf poly_sinf node bounded F32.zero
       (S754_infinity false) (background node) = Ok (background node) []
  /\ rejected unbounded (S754_infinity false) = false
  /\ exists f,
       F32.to_int f = None
       /\ plot_sample poly_cosf poly_sinf node unbounded F32.zero
            (S754_infinity false) (background node)
          = Undefined (FloatToInt f).
Proof.
  intros node bounded unbounded.
  destruct (infinite_range_is_never_plotted poly_cosf poly_sinf true bounded
              F32.zero false (background node)) as (H1 & _ & H3 & _).
  destruct (infinite_range_is_never_plotted poly_cosf poly_sinf true unbounded
              F32.zero false (background node)) as (_ & _ & _ & H4).
  assert (Hf : is_finite (range_max bounded) = true) by reflexivity.
  assert (Hu : rejected unbounded (S754_infinity false) = false)
    by reflexivity.
  split; [exact Hf|]. split; [exact (H1 Hf)|]. split; [exact (H3 (H1 Hf))|].
  split; [exact Hu|exact (H4 Hu)].
Defined.

(** X11. A zero range that passes the validation is plotted on the centre
    of the cross, whatever the angle, as long as [cos] and [sin] return
    numbers. *)
Theorem zero_range_is_the_centre cosf sinf open_ok angle s :
  let node := fst (LidarVisualizer_new open_ok) in
  is_finite (cosf angle) = true -> is_finite (sinf angle) = true ->
  to_pixel cosf sinf node angle (S754_zero s)
  = Ok (pt_x (center_ node), pt_y (center_ node)) [].
Proof.
  intros node Hc Hs. unfold to_pixel.
  change (meter_per_pixel_ node) with (S754_finite false 10737418 (-29)).
  change (F32.of_int (pt_x (center_ node)))
    with (S754_finite false 16384000 (-16)).
  change (F32.of_int (pt_y (center_ node)))
    with (S754_finite false 16384000 (-16)).
  destruct (cosf angle) as [sc|?| |sc mc ec]; try discriminate;
    destruct (sinf angle) as [ss|?| |ss ms es]; try discriminate;
    destruct s, sc, ss; reflexivity.
Qed.

Lemma zero_range_is_the_centre_witness :
  let node := fst (LidarVisualizer_new true) in
  is_finite (poly_cosf F32.one) = true
  /\ is_finite (poly_sinf F32.one) = true
  /\ to_pixel poly_cosf poly_sinf node F32.one (S754_zero false)
     = Ok (250, 250) [].
Proof.
  intros node.
  assert (H1 : is_finite (poly_cosf F32.one) = true) by reflexivity.
  assert (H2 : is_finite (poly_sinf F32.one) = true) by reflexivity.
  split; [exact H1|]. split; [exact H2|].
  exact (zero_range_is_the_centre poly_cosf poly_sinf true F32.one false H1 H2).
Defined.

(** ** Rounding, from above *)

Lemma shr_1_flags r0 :
  0 <= shr_m r0 ->
  (shr_r (shr_1 r0) || shr_s (shr_1 r0)) = true ->
  (shr_r r0 || shr_s r0) = true \/ shr_m (shr_1 r0) * 2 < shr_m r0.
Proof.
  destruct r0 as [m r s]. unfold shr_1. cbn [shr_m shr_r shr_s].
  intros Hm. destruct (r || s); [auto|].
  destruct m as [|[p|p|]|p]; cbn [shr_m shr_r shr_s orb]; intros H;
    try discriminate; try lia; right; lia.
Qed.

Lemma iter_shr_1_nonneg p r0 :
  0 <= shr_m r0 -> 0 <= shr_m (iter_pos shr_1 p r0).
Proof.
  intros H. rewrite iter_shr_1_m by exact H.
  apply Z.div_pos; [exact H|apply pow2_pos; lia].
Qed.

Lemma iter_shr_1_le p r0 :
  0 <= shr_m r0 -> shr_m (iter_pos shr_1 p r0) * 2 ^ Zpos p <= shr_m r0.
Proof.
  intros H. rewrite iter_shr_1_m by exact H.
  rewrite Z.mul_comm. apply Z.mul_div_le. apply pow2_pos. lia.
Qed.

Lemma chain_lt a b c P :
  0 < P -> a * P <= b -> b * P <= c -> (a * P < b \/ b * P < c) ->
  a * (P * P) < c.
Proof.
  intros HP H1 H2 H.
  assert (E : a * (P * P) = a * P * P) by ring.
  pose proof (Z.mul_le_mono_nonneg_r (a * P) b P ltac:(lia) H1) as L.
  destruct H as [H|H]; [|lia].
  pose proof (Z.mul_lt_mono_pos_r P (a * P) b HP) as [L' _].
  specialize (L' H). lia.
Qed.

Lemma iter_shr_1_flags p : forall r0,
  0 <= shr_m r0 ->
  (shr_r (iter_pos shr_1 p r0) || shr_s (iter_pos shr_1 p r0)) = true ->
  (shr_r r0 || shr_s r0) = true
  \/ shr_m (iter_pos shr_1 p r0) * 2 ^ Zpos p < shr_m r0.
Proof.
  induction p as [p IH|p IH|]; intros r0 H0; simpl iter_pos.
  - intros H.
    set (ra := shr_1 r0) in *.
    set (rb := iter_pos shr_1 p ra) in *.
    assert (Ha : 0 <= shr_m ra) by (unfold ra; rewrite shr_1_m by lia;
                                    apply Z.div_pos; lia).
    assert (Hb : 0 <= shr_m rb) by (apply iter_shr_1_nonneg; exact Ha).
    pose proof (iter_shr_1_le p rb Hb) as L2.
    pose proof (iter_shr_1_le p ra Ha) as L1. fold rb in L1.
    assert (L0 : shr_m ra * 2 <= shr_m r0).
    { unfold ra. rewrite shr_1_m by lia. rewrite Z.mul_comm.
      apply Z.mul_div_le. lia. }
    pose proof (pow2_pos (Zpos p) ltac:(lia)) as P.
    rewrite (Pos2Z.inj_xI p).
    replace (2 * Zpos p + 1) with (Zpos p + Zpos p + 1) by lia.
    rewrite !pow2_add, Z.pow_1_r by lia.
    assert (K : shr_m (iter_pos shr_1 p rb) * (2 ^ Zpos p * 2 ^ Zpos p)
                <= shr_m ra).
    { pose proof (Z.mul_le_mono_nonneg_r _ _ (2 ^ Zpos p) ltac:(lia) L2).
      lia. }
    replace (shr_m (iter_pos shr_1 p rb) * (2 ^ Zpos p * 2 ^ Zpos p * 2))
      with (shr_m (iter_pos shr_1 p rb) * (2 ^ Zpos p * 2 ^ Zpos p) * 2)
      by ring.
    destruct (IH rb Hb H) as [H1|H1].
    2:{ right.
        pose proof (chain_lt _ _ _ _ P L2 L1 (or_introl H1)). lia. }
    destruct (IH ra Ha H1) as [H2|H2].
    2:{ right.
        pose proof (chain_lt _ _ _ _ P L2 L1 (or_intror H2)). lia. }
    destruct (shr_1_flags r0 H0 H2) as [H3|H3]; [left; exact H3|right].
    fold ra in H3. lia.
  - intros H.
    set (ra := iter_pos shr_1 p r0) in *.
    assert (Ha : 0 <= shr_m ra) by (apply iter_shr_1_nonneg; exact H0).
    pose proof (iter_shr_1_le p ra Ha) as L2.
    pose proof (iter_shr_1_le p r0 H0) as L1. fold ra in L1.
    pose proof (pow2_pos (Zpos p) ltac:(lia)) as P.
    rewrite (Pos2Z.inj_xO p).
    replace (2 * Zpos p) with (Zpos p + Zpos p) by lia.
    rewrite pow2_add by lia.
    destruct (IH ra Ha H) as [H1|H1].
    2:{ right. exact (chain_lt _ _ _ _ P L2 L1 (or_introl H1)). }
    destruct (IH r0 H0 H1) as [H2|H2]; [left; exact H2|right].
    fold ra in H2. exact (chain_lt _ _ _ _ P L2 L1 (or_intror H2)).
  - intros H. rewrite Z.pow_1_r. apply shr_1_flags; assumption.
Qed.

Lemma shr_fexp_m_nonneg m e l r e' :
  0 <= m -> shr_fexp F32.prec F32.emax m e l = (r, e') ->
  shr_m r = m / 2 ^ Z.max 0 (fexp F32.prec F32.emax (Zdigits2 m + e) - e)
  /\ e' = e + Z.max 0 (fexp F32.prec F32.emax (Zdigits2 m + e) - e).
Proof.
  intros Hm. unfold shr_fexp, shr.
  set (n := fexp F32.prec F32.emax (Zdigits2 m + e) - e).
  assert (M : shr_m (shr_record_of_loc m l) = m)
    by (destruct l as [|[]]; reflexivity).
  destruct n as [|p|p]; intros H; inversion H; subst.
  - rewrite M. simpl. rewrite Z.div_1_r. lia.
  - rewrite iter_shr_1_m, M by lia.
    replace (Z.max 0 (Zpos p)) with (Zpos p) by lia. split; reflexivity.
  - rewrite M.
    replace (Z.max 0 (Zneg p)) with 0 by lia. rewrite Z.pow_0_r, Z.div_1_r. lia.
Qed.

(** After an exact input, the mantissa is rounded up only when bits were
    shifted out. *)
Lemma shr_fexp_exact m e r e' :
  0 <= m -> shr_fexp F32.prec F32.emax m e loc_Exact = (r, e') ->
  round_nearest_even (shr_m r) (loc_of_shr_record r) = shr_m r
  \/ (round_nearest_even (shr_m r) (loc_of_shr_record r) = shr_m r + 1
      /\ shr_m r
         * 2 ^ Z.max 0 (fexp F32.prec F32.emax (Zdigits2 m + e) - e) < m).
Proof.
  intros Hm. unfold shr_fexp, shr.
  set (n := fexp F32.prec F32.emax (Zdigits2 m + e) - e).
  cbn [shr_record_of_loc].
  destruct n as [|p|p]; intros H; inversion H; subst;
    [left; reflexivity| |left; reflexivity].
  set (r0 := {| shr_m := m; shr_r := false; shr_s := false |}) in *.
  destruct (round_nearest_even_cases (shr_m (iter_pos shr_1 p r0))
              (loc_of_shr_record (iter_pos shr_1 p r0))) as [E|E];
    [left; exact E|].
  right. split; [exact E|].
  replace (Z.max 0 (Zpos p)) with (Zpos p) by lia.
  destruct (iter_shr_1_flags p r0 Hm) as [F|F]; [|discriminate F|exact F].
  destruct (iter_pos shr_1 p r0) as [m' [] []]; try reflexivity.
  exfalso. cbn in E. lia.
Qed.

(** Rounding to nearest cannot rise above a binary32 number that the exact
    value stays under. *)
Lemma binary_round_le (U : positive) u mx ex :
  Zpos U < 16777216 -> -149 <= u <= 104 ->
  le_scaled (Zpos mx) ex (Zpos U) u ->
  le_val (binary_round F32.prec F32.emax false mx ex) (Zpos U) u.
Proof.
  intros HU Hu Hv. unfold binary_round.
  assert (Hd : ex + (Z.log2 (Zpos mx) + 1) <= 24 + u).
  { pose proof (le_scaled_digits (Z.log2 (Zpos mx) + 1) (Zpos mx) ex U u) as D.
    pose proof (Z.log2_nonneg (Zpos mx)).
    destruct (Z.log2_spec (Zpos mx)) as [Hlo _]; [lia|].
    replace (Z.log2 (Zpos mx) + 1 - 1) with (Z.log2 (Zpos mx)) in D by lia.
    specialize (D ltac:(lia) Hlo Hv).
    assert (Z.log2 (Zpos U) < 24) by (apply Z.log2_lt_pow2; simpl; lia).
    lia. }
  set (fe := fexp F32.prec F32.emax (Zpos (digits2_pos mx) + ex)).
  assert (Hfe : -149 <= fe <= u).
  { unfold fe. rewrite Zdigits2_log2.
    unfold fexp, emin, F32.prec, F32.emax. lia. }
  destruct (shl_align_spec mx ex fe) as [E Hmz]. rewrite E.
  set (mz := fst (shl_align mx ex fe)) in *.
  set (ez := Z.min ex fe) in *.
  assert (Hdz : Z.log2 (Zpos mz) = ex - ez + Z.log2 (Zpos mx)).
  { rewrite Hmz. apply Z.log2_mul_pow2; lia. }
  assert (Efe : fexp F32.prec F32.emax (Zdigits2 (Zpos mz) + ez) = fe).
  { unfold fe. rewrite Zdigits2_log2, Zdigits2_pos_log2, Hdz by lia.
    f_equal. lia. }
  set (W := Zpos U * 2 ^ (u - fe)).
  pose proof (pow2_pos (u - fe) ltac:(lia)) as PW.
  pose proof (pow2_pos (fe - ez) ltac:(lia)) as Pn.
  assert (HW : Zpos mz <= W * 2 ^ (fe - ez)).
  { apply (le_scaled_elim ez) in Hv; try lia.
    unfold W. rewrite Hmz, <- Z.mul_assoc, <- pow2_add by lia.
    replace (u - fe + (fe - ez)) with (u - ez) by lia. exact Hv. }
  unfold binary_round_aux.
  destruct (shr_fexp _ _ (Zpos mz) ez loc_Exact) as [r1 e1] eqn:E1.
  pose proof (shr_fexp_exact (Zpos mz) ez r1 e1 ltac:(lia) E1) as X1.
  apply shr_fexp_m in E1 as [Hm1 He1]; [|lia].
  rewrite Efe in X1, Hm1, He1.
  replace (Z.max 0 (fe - ez)) with (fe - ez) in X1, Hm1, He1 by lia.
  replace (ez + (fe - ez)) with fe in He1 by lia. subst e1.
  assert (B1 : 0 <= shr_m r1 <= W).
  { rewrite Hm1. split.
    - apply Z.div_pos; lia.
    - apply Z.div_le_upper_bound; lia. }
  set (m2 := round_nearest_even (shr_m r1) (loc_of_shr_record r1)) in *.
  assert (B2 : 0 <= m2 <= W).
  { destruct X1 as [X1|[X1 X2]]; [lia|].
    assert (shr_m r1 * 2 ^ (fe - ez) < W * 2 ^ (fe - ez)) by lia.
    apply Z.mul_lt_mono_pos_r in H; lia. }
  destruct (shr_fexp _ _ m2 fe loc_Exact) as [r2 e2] eqn:E2.
  apply shr_fexp_m_nonneg in E2 as [Hm2 He2]; [|lia].
  set (n2 := Z.max 0 (fexp F32.prec F32.emax (Zdigits2 m2 + fe) - fe)) in *.
  pose proof (pow2_pos n2 ltac:(lia)) as P2.
  assert (B3 : shr_m r2 * 2 ^ n2 <= m2).
  { rewrite Hm2, Z.mul_comm. apply Z.mul_div_le. exact P2. }
  destruct (shr_m r2) as [|m3|m3] eqn:E3; [exact I| |exact I].
  assert (M2 : 0 < m2) by nia.
  assert (He : e2 <= u).
  { assert (m2 < 2 ^ (24 + (u - fe))).
    { rewrite pow2_add by lia. change (2 ^ 24) with 16777216.
      unfold W in B2. nia. }
    apply Z.log2_lt_pow2 in H; [|exact M2].
    subst e2. unfold n2. rewrite Zdigits2_pos_log2 by exact M2.
    unfold fexp, emin, F32.prec, F32.emax. lia. }
  replace (e2 <=? F32.emax - F32.prec) with true
    by (symmetry; apply Z.leb_le; unfold F32.emax, F32.prec; lia).
  cbn [le_val]. apply (le_scaled_intro fe); [lia|lia|].
  replace (e2 - fe) with n2 by lia. fold W. lia.
Qed.

Lemma binary_round_sign s mx ex :
  signed_or_nan s (binary_round F32.prec F32.emax s mx ex).
Proof.
  unfold binary_round. destruct (shl_align _ _ _).
  apply (binary_round_aux_sign s).
Qed.

Lemma signed_le_val f U u : signed_or_nan true f -> le_val f U u.
Proof.
  intros [->|[(m & e & ->)|[->| ->]]]; exact I.
Qed.

(** [c - q] for a positive [q]. *)
Lemma sub_positive_le (U : positive) u mc ec m e :
  Zpos U < 16777216 -> -149 <= u <= 104 ->
  le_scaled (Zpos mc) ec (Zpos U) u ->
  le_val (F32.sub (S754_finite false mc ec) (S754_finite false m e))
         (Zpos U) u.
Proof.
  intros HU Hu Hc. unfold F32.sub, SFsub.
  set (ez := Z.min ec e).
  destruct (shl_align_spec mc ec ez) as [_ Ha].
  set (a := fst (shl_align mc ec ez)) in *.
  set (b := fst (shl_align m e ez)) in *.
  replace (Z.min ec ez) with ez in Ha by lia.
  cbn [cond_Zopp]. unfold binary_normalize.
  destruct (Zpos a - Zpos b) as [|d|d] eqn:D; [exact I| |].
  - apply binary_round_le; [exact HU|exact Hu|].
    set (c := Z.min ez u).
    apply (le_scaled_intro c); [lia|lia|].
    apply (le_scaled_elim c) in Hc; [|lia|lia].
    pose proof (pow2_pos (ez - c) ltac:(lia)) as P.
    assert (Zpos d * 2 ^ (ez - c) <= Zpos a * 2 ^ (ez - c))
      by (apply Z.mul_le_mono_nonneg_r; lia).
    rewrite Ha, <- Z.mul_assoc, <- pow2_add in H by lia.
    replace (ec - ez + (ez - c)) with (ec - c) in H by lia. lia.
  - apply signed_le_val, binary_round_sign.
Qed.

Lemma add_as_sub mc ec s m e :
  F32.add (S754_finite false mc ec) (S754_finite s m e)
  = F32.sub (S754_finite false mc ec) (S754_finite (negb s) m e).
Proof. destruct s; reflexivity. Qed.

Lemma le_val_to_int f N U u z :
  0 <= N -> -149 <= u <= 0 -> U = N * 2 ^ (- u) ->
  le_val f U u -> F32.to_int f = Some z -> z <= N.
Proof.
  intros HN Hu EU Hg Hz. apply to_int_trunc in Hz.
  destruct f as [s|s| |s m e]; try discriminate.
  - injection Hz as <-. exact HN.
  - unfold F32.trunc in Hz. injection Hz as <-.
    destruct s.
    { destruct e as [|p|p].
      - rewrite Z.shiftl_0_r. lia.
      - pose proof (Z.shiftl_nonneg (Zpos m) (Zpos p)). lia.
      - pose proof (Z.shiftr_nonneg (Zpos m) (Zpos p)). lia. }
    cbn [le_val] in Hg.
    pose proof (pow2_pos (- u) ltac:(lia)) as Pu.
    destruct e as [|p|p].
    + apply (le_scaled_elim u) in Hg; try lia.
      rewrite Z.sub_diag, Z.pow_0_r, Z.shiftl_0_r in *.
      replace (0 - u) with (- u) in Hg by lia. nia.
    + apply (le_scaled_elim u) in Hg; try lia.
      rewrite Z.sub_diag, Z.pow_0_r in Hg.
      rewrite Z.shiftl_mul_pow2 by lia.
      replace (Zpos p - u) with (Zpos p + - u) in Hg by lia.
      rewrite pow2_add in Hg by lia.
      pose proof (pow2_pos (Zpos p) ltac:(lia)). nia.
    + rewrite Z.shiftr_div_pow2 by lia.
      pose proof (Pos2Z.neg_is_neg p).
      pose proof (pow2_pos (Zpos p) ltac:(lia)) as Pp.
      apply Z.div_le_upper_bound; [exact Pp|].
      set (c := Z.min (Zneg p) u).
      apply (le_scaled_elim c) in Hg; try lia.
      pose proof (pow2_pos (Zneg p - c) ltac:(lia)) as Pc.
      assert (E : U * 2 ^ (u - c) = 2 ^ Zpos p * N * 2 ^ (Zneg p - c)).
      { rewrite EU, <- !Z.mul_assoc, (Z.mul_comm (2 ^ Zpos p)),
          <- !Z.mul_assoc, <- !pow2_add by lia.
        f_equal. f_equal. lia. }
      rewrite E in Hg. apply Z.mul_le_mono_pos_r in Hg; lia.
Qed.

(** ** Signs through the conversion *)

Lemma mul_sign a b sa sb :
  sign_of a = Some sa -> sign_of b = Some sb ->
  signed_or_nan (xorb sa sb) (F32.mul a b).
Proof.
  unfold signed_or_nan.
  destruct a as [s1|s1| |s1 m1 e1]; destruct b as [s2|s2| |s2 m2 e2];
    cbn [sign_of]; intros Ha Hb; try discriminate;
    injection Ha as <-; injection Hb as <-;
    cbn [F32.mul SFmul]; eauto 6.
  apply (binary_round_aux_sign (xorb s1 s2)).
Qed.

Lemma div_sign s x my ey :
  signed_or_nan s x ->
  signed_or_nan s (F32.div x (S754_finite false my ey)).
Proof.
  unfold signed_or_nan.
  intros [->|[(m & e & ->)|[->| ->]]]; cbn [F32.div SFdiv];
    rewrite ?xorb_false_r; eauto 6.
  destruct (SFdiv_core_binary _ _ _ _ _ _) as [[mz ez] lz].
  apply (binary_round_aux_sign s).
Qed.

Lemma opp_sign s x :
  signed_or_nan s x -> signed_or_nan (negb s) (F32.opp x).
Proof.
  unfold signed_or_nan.
  intros [->|[(m & e & ->)|[->| ->]]]; cbn [F32.opp SFopp]; eauto 6.
Qed.

(** [250 - q]: on the side of 250 opposite to the sign of [q]. *)
Lemma sub_from_centre s q z :
  signed_or_nan s q ->
  F32.to_int (F32.sub (S754_finite false 16384000 (-16)) q) = Some z ->
  if s then 250 <= z else z <= 250.
Proof.
  intros [->|[(m & e & ->)|[->| ->]]] Hz.
  - destruct s; vm_compute in Hz; injection Hz as <-; lia.
  - destruct s.
    + refine (ge_val_to_int _ 250 16384000 (-16) _ _ _ _ Hz);
        [lia|reflexivity|].
      apply (sub_negative_ge 250 0); try lia; try reflexivity.
      apply le_scaled_zero.
    + refine (le_val_to_int _ 250 16384000 (-16) _ _ _ _ _ Hz);
        [lia|lia|reflexivity|].
      apply (sub_positive_le 16384000); [reflexivity|lia|].
      apply (le_scaled_intro (-16)); [lia|lia|lia].
  - destruct s; discriminate Hz.
  - discriminate Hz.
Qed.

(** [250 + q]: on the side of 250 given by the sign of [q]. *)
Lemma add_to_centre s q z :
  signed_or_nan s q ->
  F32.to_int (F32.add (S754_finite false 16384000 (-16)) q) = Some z ->
  if s then z <= 250 else 250 <= z.
Proof.
  intros Hq Hz.
  destruct Hq as [->|[(m & e & ->)|[->| ->]]].
  - destruct s; vm_compute in Hz; injection Hz as <-; lia.
  - rewrite add_as_sub in Hz.
    pose proof (sub_from_centre (negb s) (S754_finite (negb s) m e) z) as H.
    destruct s; apply H; try exact Hz; right; left; eauto.
  - destruct s; discriminate Hz.
  - discriminate Hz.
Qed.

(** X12. The side of the centre a sample is drawn on follows the signs of
    [cos] and [sin] alone, whatever their magnitudes and the rounding of
    the five float operations: for a range that is not negative, the pixel
    is on the centre column or right of it when [sin(angle)] is not
    negative and on it or left of it otherwise, and on the centre row or
    below it when [cos(angle)] is not negative and on it or above it
    otherwise. A negative range swaps the sides ([sr] is the sign bit of
    the range, [sc] and [ss] those of the cosine and the sine). *)
Theorem pixel_side_follows_signs cosf sinf open_ok angle range
    sr sc ss px py tr :
  let node := fst (LidarVisualizer_new open_ok) in
  sign_of range = Some sr ->
  sign_of (cosf angle) = Some sc ->
  sign_of (sinf angle) = Some ss ->
  to_pixel cosf sinf node angle range = Ok (px, py) tr ->
  (if xorb sr ss then px <= pt_x (center_ node)
   else pt_x (center_ node) <= px)
  /\ (if xorb sr sc then py <= pt_y (center_ node)
      else pt_y (center_ node) <= py).
Proof.
  intros node Hr Hc Hs H.
  pose proof (mul_sign _ _ _ _ Hr Hc) as Sx.
  pose proof (mul_sign _ _ _ _ Hr Hs) as Sy.
  unfold to_pixel in H.
  change (meter_per_pixel_ node) with (S754_finite false 10737418 (-29)) in H.
  change (F32.of_int (pt_x (center_ node)))
    with (S754_finite false 16384000 (-16)) in H.
  change (F32.of_int (pt_y (center_ node)))
    with (S754_finite false 16384000 (-16)) in H.
  change (pt_x (center_ node)) with 250.
  change (pt_y (center_ node)) with 250.
  apply bind_Ok_inv in H as (px' & t1 & t2 & Hpx & H & _).
  apply bind_Ok_inv in H as (py' & t3 & t4 & Hpy & H & _).
  injection H as <- <- _.
  destruct (static_cast_int_cases
              (F32.add (S754_finite false 16384000 (-16))
                 (F32.div (F32.mul range (sinf angle))
                    (S754_finite false 10737418 (-29)))))
    as [(zx & Ex & Ex')|(Ex & Ex')]; rewrite Ex' in Hpx; [|discriminate].
  destruct (static_cast_int_cases
              (F32.sub (S754_finite false 16384000 (-16))
                 (F32.div (F32.opp (F32.mul range (cosf angle)))
                    (S754_finite false 10737418 (-29)))))
    as [(zy & Ey & Ey')|(Ey & Ey')]; rewrite Ey' in Hpy; [|discriminate].
  injection Hpx as <- _. injection Hpy as <- _.
  split.
  - apply (add_to_centre _ _ _ (div_sign _ _ _ _ Sy) Ex).
  - pose proof (sub_from_centre _ _ _
                  (div_sign _ _ 10737418 (-29) (opp_sign _ _ Sx)) Ey) as G.
    destruct (xorb sr sc); exact G.
Qed.

Lemma pixel_side_follows_signs_witness :
  let node := fst (LidarVisualizer_new true) in
  sign_of F32.one = Some false
  /\ sign_of (poly_cosf (F32.of_int 2)) = Some true
  /\ sign_of (poly_sinf (F32.of_int 2)) = Some false
  /\ to_pixel poly_cosf poly_sinf node (F32.of_int 2) F32.one
     = Ok (296, 233) []
  /\ pt_x (center_ node) <= 296
  /\ 233 <= pt_y (center_ node).
Proof.
  intros node.
  assert (H1 : sign_of F32.one = Some false) by reflexivity.
  assert (H2 : sign_of (poly_cosf (F32.of_int 2)) = Some true)
    by (vm_compute; reflexivity).
  assert (H3 : sign_of (poly_sinf (F32.of_int 2)) = Some false)
    by (vm_compute; reflexivity).
  assert (H4 : to_pixel poly_cosf poly_sinf node (F32.of_int 2) F32.one
               = Ok (296, 233) [])
    by (vm_compute; reflexivity).
  split; [exact H1|]. split; [exact H2|]. split; [exact H3|].
  split; [exact H4|].
  exact (pixel_side_follows_signs poly_cosf poly_sinf true (F32.of_int 2)
           F32.one false true false 296 233 [] H1 H2 H3 H4).
Defined.
